(** * MdsBrowser and DriveManager: a shallow embedding

    Sources:
    - [packages/cli/src/ui/components/MdsBrowser.tsx]
    - [packages/core/src/utils/driveManager.ts]

    JavaScript numbers that hold array indices and terminal sizes are
    integers here ([Z]); strings are [string] (their bytes; every suffix the
    sources test for is ASCII); a promise is a computation in an exception
    monad ([Ok] = resolved, [Throw] = rejected). *)

From Stdlib Require Import ZArith List String Ascii Bool Lia.
From Stdlib Require Import Sorted Permutation DecimalString OrderedTypeEx.
Import ListNotations.

Local Open Scope Z_scope.

(* ================================================================== *)
(** ** JavaScript string and array primitives used by the sources *)
(* ================================================================== *)

Module Js.

(** [String.prototype.toLowerCase], on the ASCII letters.  The suffixes the
    sources test for ('agents.md', '.agents') contain no letter that has a
    non-ASCII upper-case form, so other characters are left as they are. *)
Definition lower_ascii (c : ascii) : ascii :=
  let n := nat_of_ascii c in
  if (Nat.leb 65 n && Nat.leb n 90)%bool then ascii_of_nat (n + 32) else c.

Fixpoint toLowerCase (s : string) : string :=
  match s with
  | EmptyString => EmptyString
  | String c r => String (lower_ascii c) (toLowerCase r)
  end.

(** [String.prototype.endsWith(searchString)]: with [start = length -
    searchLength], false when [start < 0], otherwise the comparison of the
    code units from [start] on with [searchString]. *)
Definition endsWith (s suffix : string) : bool :=
  let len := String.length s in
  let searchLength := String.length suffix in
  if Nat.ltb len searchLength then false
  else String.eqb (String.substring (len - searchLength) searchLength s) suffix.

(** Truthiness of a string value: the empty string is falsy. *)
Definition truthy (s : string) : bool := negb (String.eqb s EmptyString).

(** A [Set<string>]: the members in insertion order, each one once
    (SameValueZero on strings is equality of the strings). *)
Definition StrSet := list string.

Definition set_has (s : StrSet) (x : string) : bool :=
  existsb (String.eqb x) s.

Definition set_add (s : StrSet) (x : string) : StrSet :=
  if set_has s x then s else s ++ [x].

(** [new Set(iterable)] *)
Definition set_of_list (l : list string) : StrSet :=
  fold_left set_add l [].

Section Arrays.
Context {A : Type}.

(** [Array.prototype.sort(comparefn)].  The standard requires a stable
    sort; for a consistent comparator the stable sorted permutation of an
    array is unique, so the algorithm chosen here (insertion, from the
    right) does not matter.  [comparefn a b <= 0] keeps [a] before [b]. *)
Fixpoint sort_insert (comparefn : A -> A -> Z) (x : A) (l : list A) : list A :=
  match l with
  | [] => [x]
  | y :: r =>
      if comparefn x y <=? 0 then x :: y :: r
      else y :: sort_insert comparefn x r
  end.

Fixpoint sort (comparefn : A -> A -> Z) (l : list A) : list A :=
  match l with
  | [] => []
  | x :: r => sort_insert comparefn x (sort comparefn r)
  end.

(** [Array.prototype.slice(start, end)] with its relative-index rules. *)
Definition slice (l : list A) (start end_ : Z) : list A :=
  let len := Z.of_nat (List.length l) in
  let k := if start <? 0 then Z.max (len + start) 0 else Z.min start len in
  let final := if end_ <? 0 then Z.max (len + end_) 0 else Z.min end_ len in
  let count := Z.max (final - k) 0 in
  firstn (Z.to_nat count) (skipn (Z.to_nat k) l).
End Arrays.

End Js.

(* ================================================================== *)
(** ** MdsBrowser.tsx: data model *)
(* ================================================================== *)

(** [interface FileEntry { path: string; type: string; id?: string }] *)
Record FileEntry := mkFileEntry {
  path : string;
  type : string;
  id : option string
}.

(** The part of [Config] the component reads.  [metadata] and [filePath] are
    optional, [getAgentRegistry()] may be undefined and
    [getGeminiMdFilePaths()] may be falsy. *)
Record AgentMetadata := { filePath : option string }.
Record AgentDefinition := { metadata : option AgentMetadata }.
Record AgentRegistry := { getAllDefinitions : list AgentDefinition }.
Record Config := {
  getGeminiMdFilePaths : option (list string);
  getAgentRegistry : option AgentRegistry
}.

(* ================================================================== *)
(** ** MdsBrowser.tsx: the [localFiles] memo (entry resolver) *)
(* ================================================================== *)

Module Resolver.

(** [config.getGeminiMdFilePaths() || []] *)
Definition memoryFiles (config : Config) : list string :=
  match getGeminiMdFilePaths config with
  | Some l => l
  | None => []
  end.

(** [config.getAgentRegistry()?.getAllDefinitions() || []] *)
Definition definitions (config : Config) : list AgentDefinition :=
  match getAgentRegistry config with
  | Some r => getAllDefinitions r
  | None => []
  end.

(** [definition.metadata?.filePath], when truthy *)
Definition backingPath (d : AgentDefinition) : option string :=
  match metadata d with
  | Some m =>
      match filePath m with
      | Some p => if Js.truthy p then Some p else None
      | None => None
      end
  | None => None
  end.

(** The loop filling [agentPaths]. *)
Definition agentPaths (config : Config) : Js.StrSet :=
  fold_left
    (fun acc d =>
       match backingPath d with
       | Some p => Js.set_add acc p
       | None => acc
       end)
    (definitions config) [].

(** [new Set([...memoryFiles, ...agentPaths])] *)
Definition allPaths (config : Config) : Js.StrSet :=
  Js.set_of_list (memoryFiles config ++ agentPaths config).

(** The body of the [.map] callback. *)
Definition classify (config : Config) (p : string) : FileEntry :=
  let lower := Js.toLowerCase p in
  let type :=
    if (Js.set_has (agentPaths config) p
        || Js.endsWith lower "agents.md"
        || Js.endsWith lower ".agents")%bool
    then "Agent"%string
    else "Memory"%string in
  {| path := p; type := type; id := None |}.

Section WithCollation.
(** [String.prototype.localeCompare] of the host: negative, zero or
    positive. *)
Variable localeCompare : string -> string -> Z.

(** The [.sort] callback. *)
Definition compareEntries (a b : FileEntry) : Z :=
  if negb (String.eqb (type a) (type b))
  then localeCompare (type a) (type b)
  else localeCompare (path a) (path b).

Definition localFiles (config : Config) : list FileEntry :=
  Js.sort compareEntries (map (classify config) (allPaths config)).
End WithCollation.

(** The order the claim speaks of, over the host's collation: an entry of
    an earlier kind, or of the same kind with a path that is not later. *)
Definition entry_le (localeCompare : string -> string -> Z)
    (a b : FileEntry) : Prop :=
  (type a <> type b /\ localeCompare (type a) (type b) < 0)
  \/ (type a = type b /\ localeCompare (path a) (path b) <= 0).

(** The two tags [classify] gives. *)
Definition isKind (e : FileEntry) : Prop :=
  type e = "Agent"%string \/ type e = "Memory"%string.

(** What [Array.prototype.sort] asks of a comparator on strings
    (a consistent comparison function), and the two tags are told apart. *)
Definition consistentCollation (localeCompare : string -> string -> Z) : Prop :=
  (forall a b, Z.sgn (localeCompare b a) = - Z.sgn (localeCompare a b))
  /\ (forall a b c, localeCompare a b <= 0 -> localeCompare b c <= 0 ->
                    localeCompare a c <= 0)
  /\ localeCompare "Agent"%string "Memory"%string <> 0.

(** An example configuration: one registered definition backed by a file
    whose name carries no agent marker, and two known documents. *)
Definition sampleConfig : Config :=
  {| getGeminiMdFilePaths := Some ["/a/notes.md"; "/a/AGENTS.md"; "/a/notes.md"]%string;
     getAgentRegistry :=
       Some {| getAllDefinitions :=
                 [ {| metadata := Some {| filePath := Some "/a/custom.md"%string |} |};
                   {| metadata := None |};
                   {| metadata := Some {| filePath := Some ""%string |} |} ] |} |}.

(** A concrete collation for examples: code-unit order. *)
Definition codeUnitCompare (a b : string) : Z :=
  match String.compare a b with
  | Lt => -1
  | Eq => 0
  | Gt => 1
  end.

(** The same documents and definitions as [sampleConfig], in another order
    and with other repetitions. *)
Definition sampleConfigReordered : Config :=
  {| getGeminiMdFilePaths := Some ["/a/AGENTS.md"; "/a/notes.md"; "/a/custom.md"]%string;
     getAgentRegistry :=
       Some {| getAllDefinitions :=
                 [ {| metadata := Some {| filePath := None |} |};
                   {| metadata := Some {| filePath := Some "/a/custom.md"%string |} |};
                   {| metadata := Some {| filePath := Some "/a/custom.md"%string |} |} ] |} |}.

End Resolver.

(* ================================================================== *)
(** ** External services as calls answered by the host *)
(* ================================================================== *)

(** A JavaScript [Error], by its message. *)
Definition Error := string.

Inductive outcome (A : Type) : Type :=
| Ok (a : A)
| Throw (e : Error).
Arguments Ok {A} a.
Arguments Throw {A} e.

Inductive Level := info | error.
Inductive CoreEvent := ExternalEditorClosed.

(** The handle [getOauthClient] resolves with. *)
Inductive AuthClient := authClient.

(** An element of [res.data.files]. *)
Record DriveFile := { file_id : string; file_name : string }.

(** The object [spawnSync] returns: [status] is a number or null. *)
Record SpawnResult := { status : option Z; spawn_error : option Error }.

(** Every service the two sources call, indexed by what it answers. *)
Inductive Call : Type -> Type :=
| GetOauthClient : Call AuthClient
| FilesList (q fields : string) : Call (option (list DriveFile))
| FilesCreate (folderName mimeType parent : string) : Call string
| FilesGet (fileId : string) : Call string
| FsMkdir (dir : string) : Call unit
| FsWriteFile (file data : string) : Call unit
| DebugWarn (msg : string) (e : Error) : Call unit
| SetRawMode (mode : bool) : Call unit
| SpawnSync (command : string) (args : list string) : Call SpawnResult
| EmitFeedback (level : Level) (msg : string) (detail : option Error) : Call unit
| EmitCoreEvent (ev : CoreEvent) : Call unit.

Definition AnyCall := { R : Type & Call R }.
Definition anyCall {R} (c : Call R) : AnyCall := existT _ R c.
Definition Trace := list AnyCall.

(** The host: what a call answers (or throws), given the calls made so far. *)
Definition World := Trace -> forall R, Call R -> outcome R.

(** Computations that call the host, may throw, and leave a trace of their
    calls.  An [async] function is such a computation: it resolves ([Ok]) or
    rejects ([Throw]). *)
Module Eff.

Definition M (A : Type) : Type := World -> Trace -> outcome A * Trace.

Definition ret {A} (a : A) : M A := fun _ t => (Ok a, t).

Definition throw {A} (e : Error) : M A := fun _ t => (Throw e, t).

Definition bind {A B} (m : M A) (k : A -> M B) : M B :=
  fun w t =>
    match m w t with
    | (Ok a, t') => k a w t'
    | (Throw e, t') => (Throw e, t')
    end.

(** A call the host answers; it may throw. *)
Definition call {R} (c : Call R) : M R :=
  fun w t => (w t R c, t ++ [anyCall c]).

(** A call that only has an effect (logging, events, terminal mode). *)
Definition tell (c : Call unit) : M unit :=
  fun _ t => (Ok tt, t ++ [anyCall c]).

(** [try { body } catch (e) { handler e }] *)
Definition try_catch {A} (body : M A) (handler : Error -> M A) : M A :=
  fun w t =>
    match body w t with
    | (Ok a, t') => (Ok a, t')
    | (Throw e, t') => handler e w t'
    end.

(** [try { body } finally { final }]: [final] runs on every exit, and an
    exception of [final] replaces the result. *)
Definition try_finally {A} (body : M A) (final : M unit) : M A :=
  fun w t =>
    match body w t with
    | (r, t') =>
        match final w t' with
        | (Ok _, t'') => (r, t'')
        | (Throw e, t'') => (Throw e, t'')
        end
    end.

Definition when (b : bool) (m : M unit) : M unit :=
  if b then m else ret tt.

End Eff.

Declare Scope eff_scope.
Delimit Scope eff_scope with eff.
Notation "x <- m ;; k" := (Eff.bind m (fun x => k))
  (at level 61, m at next level, right associativity) : eff_scope.
Notation "m ;;; k" := (Eff.bind m (fun _ => k))
  (at level 61, right associativity) : eff_scope.

(** What a trace says about the terminal: the mode set last. *)
Fixpoint rawModeAfter (initial : bool) (t : Trace) : bool :=
  match t with
  | [] => initial
  | existT _ _ (SetRawMode b) :: r => rawModeAfter b r
  | _ :: r => rawModeAfter initial r
  end.

Definition isErrorFeedback (c : AnyCall) : bool :=
  match c with
  | existT _ _ (EmitFeedback error _ _) => true
  | _ => false
  end.

Definition isCallTo (p : forall R, Call R -> bool) (c : AnyCall) : bool :=
  p (projT1 c) (projT2 c).

Definition isDebugWarn R (c : Call R) : bool :=
  match c with DebugWarn _ _ => true | _ => false end.

Definition isSpawnSync R (c : Call R) : bool :=
  match c with SpawnSync _ _ => true | _ => false end.

(** A call without its answer type, for comparing the calls of a trace. *)
Inductive CallInfo :=
| IGetOauthClient
| IFilesList (q fields : string)
| IFilesCreate (folderName mimeType parent : string)
| IFilesGet (fileId : string)
| IFsMkdir (dir : string)
| IFsWriteFile (file data : string)
| IDebugWarn (msg : string) (e : Error)
| ISetRawMode (mode : bool)
| ISpawnSync (command : string) (args : list string)
| IEmitFeedback (level : Level) (msg : string) (detail : option Error)
| IEmitCoreEvent (ev : CoreEvent).

Definition describe (c : AnyCall) : CallInfo :=
  match c with
  | existT _ _ GetOauthClient => IGetOauthClient
  | existT _ _ (FilesList q f) => IFilesList q f
  | existT _ _ (FilesCreate n m p) => IFilesCreate n m p
  | existT _ _ (FilesGet i) => IFilesGet i
  | existT _ _ (FsMkdir d) => IFsMkdir d
  | existT _ _ (FsWriteFile f d) => IFsWriteFile f d
  | existT _ _ (DebugWarn m e) => IDebugWarn m e
  | existT _ _ (SetRawMode b) => ISetRawMode b
  | existT _ _ (SpawnSync c a) => ISpawnSync c a
  | existT _ _ (EmitFeedback l m d) => IEmitFeedback l m d
  | existT _ _ (EmitCoreEvent ev) => IEmitCoreEvent ev
  end.

(* ================================================================== *)
(** ** driveManager.ts *)
(* ================================================================== *)

Module DriveManager.
Import Eff.
Local Open Scope eff_scope.
Local Open Scope string_scope.

(** What the class reads from the process and from [Storage], and
    [path.join] of [node:path]. *)
Record Env := {
  cwd : string;                        (* process.cwd() *)
  getGlobalGeminiDir : string;         (* Storage.getGlobalGeminiDir() *)
  path_join : string -> string -> string
}.

Definition folderMime : string := "application/vnd.google-apps.folder".

(** [getOauthClient] may reject; [google.drive(...)] only builds the
    client object. *)
Definition getDriveClient : M AuthClient :=
  call GetOauthClient.

(** A [string | null] tested with [!x]: null and the empty string. *)
Definition falsy (x : option string) : bool :=
  match x with
  | Some s => negb (Js.truthy s)
  | None => true
  end.

Definition findFolder (driveClient : AuthClient) (folderName parentId : string)
  : M (option string) :=
  files <- call (FilesList
                   ("name='" ++ folderName ++ "' and mimeType='" ++ folderMime
                    ++ "' and '" ++ parentId ++ "' in parents and trashed=false")
                   "files(id, name)") ;;
  match files with
  | Some (f :: _) => ret (Some (file_id f))
  | _ => ret None
  end.

Definition createFolder (driveClient : AuthClient) (folderName parentId : string)
  : M string :=
  call (FilesCreate folderName folderMime parentId).

Definition orEmpty (x : option string) : string :=
  match x with Some s => s | None => "" end.

Definition getOrCreateWorkspaceFolder : M string :=
  driveClient <- getDriveClient ;;
  found <- findFolder driveClient "gemini-cli" "root" ;;
  geminiCliFolderId <-
    (if falsy found then createFolder driveClient "gemini-cli" "root"
     else ret (orEmpty found)) ;;
  found' <- findFolder driveClient "md-files" geminiCliFolderId ;;
  mdFilesFolderId <-
    (if falsy found' then createFolder driveClient "md-files" geminiCliFolderId
     else ret (orEmpty found')) ;;
  ret mdFilesFolderId.

(** The [try] block of [listFiles]. *)
Definition listFiles_body (driveClient : AuthClient) : M (list DriveFile) :=
  folderId <- getOrCreateWorkspaceFolder ;;
  files <- call (FilesList ("'" ++ folderId ++ "' in parents and trashed=false")
                   "files(id, name)") ;;
  ret (match files with Some l => l | None => [] end).

(** [listFiles]: the client is obtained before the [try]. *)
Definition listFiles : M (list DriveFile) :=
  driveClient <- getDriveClient ;;
  try_catch (listFiles_body driveClient)
    (fun e => tell (DebugWarn "Failed to list files from Drive" e) ;;; ret []).

(** The trace entry of the warning [listFiles] logs. *)
Definition listWarning (e : Error) : AnyCall :=
  anyCall (DebugWarn "Failed to list files from Drive" e).

(** The destination chosen by [downloadFile]. *)
Definition destDir (env : Env) (fileName : string) : string :=
  if Js.endsWith fileName ".AGENTS"
  then path_join env (getGlobalGeminiDir env) "skills"
  else cwd env.

Definition downloadFile (env : Env) (fileId fileName : string) : M string :=
  try_catch
    (driveClient <- getDriveClient ;;
     data <- call (FilesGet fileId) ;;
     let destDir := destDir env fileName in
     call (FsMkdir destDir) ;;;
     let localFilePath := path_join env destDir fileName in
     call (FsWriteFile localFilePath data) ;;;
     ret localFilePath)
    (fun e => tell (DebugWarn "Failed to download file from Drive" e) ;;; throw e).

(** *** Example hosts *)

(** POSIX [path.join] on two segments that need no normalisation. *)
Definition posixEnv : Env :=
  {| cwd := "/work";
     getGlobalGeminiDir := "/home/u/.gemini";
     path_join := fun a b => a ++ "/" ++ b |}.

(** A host where every call succeeds; the folders exist and hold one file. *)
Definition healthyWorld : World :=
  fun _ R c =>
    match c in Call R return outcome R with
    | GetOauthClient => Ok authClient
    | FilesList _ _ => Ok (Some [ {| file_id := "xyz"; file_name := "spec.agents" |} ])
    | FilesCreate _ _ _ => Ok "new-folder"
    | FilesGet _ => Ok "# contents"
    | FsMkdir _ => Ok tt
    | FsWriteFile _ _ => Ok tt
    | DebugWarn _ _ => Ok tt
    | SetRawMode _ => Ok tt
    | SpawnSync _ _ => Ok {| status := Some 0; spawn_error := None |}
    | EmitFeedback _ _ _ => Ok tt
    | EmitCoreEvent _ => Ok tt
    end.

(** A host whose credentials cannot be obtained. *)
Definition signedOutWorld : World :=
  fun t R c =>
    match c in Call R return outcome R with
    | GetOauthClient => Throw "no credentials"
    | c' => healthyWorld t _ c'
    end.

(** A host where the client is obtained but every Drive request fails. *)
Definition offlineWorld : World :=
  fun t R c =>
    match c in Call R return outcome R with
    | FilesList _ _ => Throw "network unreachable"
    | FilesCreate _ _ _ => Throw "network unreachable"
    | FilesGet _ => Throw "network unreachable"
    | c' => healthyWorld t _ c'
    end.

(** A host whose Drive holds nothing yet: every lookup finds no file. *)
Definition emptyDriveWorld : World :=
  fun t R c =>
    match c in Call R return outcome R with
    | FilesList _ _ => Ok (Some [])
    | c' => healthyWorld t _ c'
    end.

(** *** Further notions about the calls of the manager *)

(** The query [findFolder] sends for a folder name under a parent. *)
Definition folderQuery (folderName parentId : string) : string :=
  "name='" ++ folderName ++ "' and mimeType='" ++ folderMime
  ++ "' and '" ++ parentId ++ "' in parents and trashed=false".

(** The two lookups of [getOrCreateWorkspaceFolder]. *)
Definition lookupGeminiCli : Call (option (list DriveFile)) :=
  FilesList (folderQuery "gemini-cli" "root") "files(id, name)".

Definition lookupMdFiles (parent : string) : Call (option (list DriveFile)) :=
  FilesList (folderQuery "md-files" parent) "files(id, name)".

(** The folder a lookup answer gives [getOrCreateWorkspaceFolder]: the id of
    the first file, unless there is none or the id is empty. *)
Definition usableFolder (files : option (list DriveFile)) : option string :=
  match files with
  | Some (f :: _) => if Js.truthy (file_id f) then Some (file_id f) else None
  | _ => None
  end.

(** The calls a computation adds to the trace [t]. *)
Definition added {A} (m : M A) (w : World) (t : Trace) : Trace :=
  skipn (List.length t) (snd (m w t)).

Definition isFsCall (c : CallInfo) : bool :=
  match c with
  | IFsMkdir _ | IFsWriteFile _ _ => true
  | _ => false
  end.

Definition isCreate (c : CallInfo) : bool :=
  match c with
  | IFilesCreate _ _ _ => true
  | _ => false
  end.

Definition isWarn (c : CallInfo) : bool :=
  match c with
  | IDebugWarn _ _ => true
  | _ => false
  end.

End DriveManager.

(* ================================================================== *)
(** ** driveManager.ts: [uploadFile] *)
(* ================================================================== *)

Module DriveUpload.
Import DriveManager.
Local Open Scope string_scope.

(** The calls of [uploadFile]: the ones above, reading the local file, and
    the two requests that write a file to Drive. *)
Inductive UploadCall : Type -> Type :=
| Base {R : Type} (c : Call R) : UploadCall R
| FsReadFile (file encoding : string) : UploadCall string
| FilesUpdate (fileId mimeType body : string) : UploadCall unit
| FilesCreateFile (fileName parent mimeType body : string) : UploadCall unit.

Definition AnyUploadCall := { R : Type & UploadCall R }.
Definition anyUpload {R} (c : UploadCall R) : AnyUploadCall := existT _ R c.
Definition UploadTrace := list AnyUploadCall.
Definition UploadWorld := UploadTrace -> forall R, UploadCall R -> outcome R.

Definition base (c : AnyCall) : AnyUploadCall :=
  existT _ (projT1 c) (Base (projT2 c)).

(** The same computations as [Eff.M], over the larger set of calls. *)
Definition M (A : Type) : Type :=
  UploadWorld -> UploadTrace -> outcome A * UploadTrace.

Definition ret {A} (a : A) : M A := fun _ t => (Ok a, t).

Definition throw {A} (e : Error) : M A := fun _ t => (Throw e, t).

Definition bind {A B} (m : M A) (k : A -> M B) : M B :=
  fun w t =>
    match m w t with
    | (Ok a, t') => k a w t'
    | (Throw e, t') => (Throw e, t')
    end.

Definition call {R} (c : UploadCall R) : M R :=
  fun w t => (w t R c, t ++ [anyUpload c])%list.

Definition try_catch {A} (body : M A) (handler : Error -> M A) : M A :=
  fun w t =>
    match body w t with
    | (Ok a, t') => (Ok a, t')
    | (Throw e, t') => handler e w t'
    end.

(** A computation over the smaller set of calls, run here: the host sees
    the whole history, and the calls made are added to it. *)
Definition lift {A} (m : Eff.M A) : M A :=
  fun w t =>
    let (o, t') := m (fun h R c => w (t ++ map base h)%list R (Base c)) [] in
    (o, (t ++ map base t')%list).

Declare Scope upload_scope.
Delimit Scope upload_scope with upload.
Notation "x <- m ;; k" := (bind m (fun x => k))
  (at level 61, m at next level, right associativity) : upload_scope.
Notation "m ;;; k" := (bind m (fun _ => k))
  (at level 61, right associativity) : upload_scope.

(** The query for a file of a given name in the workspace folder. *)
Definition fileQuery (fileName folderId : string) : string :=
  "name='" ++ fileName ++ "' and '" ++ folderId ++ "' in parents and trashed=false".

(** [uploadFile]; [basename] is the one of [node:path]. *)
Definition uploadFile (basename : string -> string) (localFilePath : string)
  : M unit :=
  try_catch
    (driveClient <- lift getDriveClient ;;
     folderId <- lift getOrCreateWorkspaceFolder ;;
     let fileName := basename localFilePath in
     files <- lift (Eff.call (FilesList (fileQuery fileName folderId) "files(id)")) ;;
     fileContent <- call (FsReadFile localFilePath "utf-8") ;;
     match files with
     | Some (f :: _) =>
         call (FilesUpdate (file_id f) "text/markdown" fileContent)
     | _ =>
         call (FilesCreateFile fileName folderId "text/markdown" fileContent)
     end)%upload
    (fun e =>
       (lift (Eff.tell (DebugWarn "Failed to upload file to Drive" e)) ;;;
        throw e)%upload).

(** The calls a computation adds to the trace [t]. *)
Definition added {A} (m : M A) (w : UploadWorld) (t : UploadTrace) : UploadTrace :=
  skipn (List.length t) (snd (m w t)).

Definition isDriveWrite (c : AnyUploadCall) : bool :=
  match c with
  | existT _ _ (FilesUpdate _ _ _) => true
  | existT _ _ (FilesCreateFile _ _ _ _) => true
  | _ => false
  end.

(** The write [uploadFile] chooses: update the first file the folder lists
    under the name, create one when it lists none. *)
Definition chosenWrite (files : option (list DriveFile))
    (fileName folderId content : string) : AnyUploadCall :=
  match files with
  | Some (f :: _) => anyUpload (FilesUpdate (file_id f) "text/markdown" content)
  | _ => anyUpload (FilesCreateFile fileName folderId "text/markdown" content)
  end.

(** [basename] on a POSIX path: what follows the last slash. *)
Fixpoint posixBasename (s : string) : string :=
  match s with
  | EmptyString => EmptyString
  | String c r =>
      if existsb (Ascii.eqb "/") (list_ascii_of_string r) then posixBasename r
      else if Ascii.eqb c "/" then r else String c r
  end.

(** A host over the larger set of calls, from one over the smaller set;
    the local file holds [content], and writes to Drive succeed. *)
Definition uploadWorld (w : World) (content : string) : UploadWorld :=
  fun _ R c =>
    match c in UploadCall R return outcome R with
    | Base c' => w [] _ c'
    | FsReadFile _ _ => Ok content
    | FilesUpdate _ _ _ => Ok tt
    | FilesCreateFile _ _ _ _ => Ok tt
    end.

(** The same, with an unreadable local file. *)
Definition unreadableWorld (w : World) : UploadWorld :=
  fun t R c =>
    match c in UploadCall R return outcome R with
    | FsReadFile _ _ => Throw "ENOENT"
    | c' => uploadWorld w "" t _ c'
    end.

End DriveUpload.

(* ================================================================== *)
(** ** MdsBrowser.tsx: view state, key dispatch, scroll window *)
(* ================================================================== *)

Module MdsBrowser.
Import Eff.
Local Open Scope string_scope.
Local Open Scope Z_scope.

(** [useState<'local' | 'drive'>] *)
Inductive ViewMode := local | drive.

Definition ViewMode_eqb (a b : ViewMode) : bool :=
  match a, b with
  | local, local | drive, drive => true
  | _, _ => false
  end.

(** The four [useState] cells, and the [listFiles()] promises that have
    not settled yet (kept by the runtime, not by the component). *)
Record State := {
  activeIndex : Z;
  viewMode : ViewMode;
  driveFiles : list FileEntry;
  isDriveLoading : bool;
  listPending : nat
}.

Definition initialState : State :=
  {| activeIndex := 0; viewMode := local; driveFiles := [];
     isDriveLoading := false; listPending := 0 |}.

(** A key event, and the commands of the key-binding table the handler
    consults. *)
Record Key := { name : string; ctrl : bool; meta : bool; shift : bool }.

Inductive Command :=
| SAVE_TO_DRIVE | IMPORT_FROM_DRIVE
| MOVE_DOWN | HISTORY_DOWN | MOVE_UP | HISTORY_UP
| OPEN_EXTERNAL_EDITOR | OPEN_FILE_LOCATION.

(** What a handler asks the outside to do. *)
Inductive Cmd :=
| CmdOnClose
| CmdFeedback (level : Level) (msg : string)
| CmdListFiles                                  (* manager.listFiles() *)
| CmdDownloadFile (fileId fileName : string)    (* manager.downloadFile(..) *)
| CmdUploadFile (localFilePath : string)        (* manager.uploadFile(..) *)
| CmdOpenFileInEditor (filePath : string)
| CmdOpenFolder (filePath : string).

Definition isListFiles (c : Cmd) : bool :=
  match c with CmdListFiles => true | _ => false end.

(** What the component reacts to: a key press, or the settlement of a
    promise it is waiting for. *)
Inductive Input :=
| KeyPress (key : Key)
| ListResolved (f : list DriveFile)
| ListRejected (e : Error)
| DownloadResolved (p : string)
| DownloadRejected (e : Error)
| UploadResolved (localFilePath : string)
| UploadRejected (e : Error).

(** [files[activeIndex]] *)
Definition array_get {A} (l : list A) (i : Z) : option A :=
  if i <? 0 then None else nth_error l (Z.to_nat i).

Definition length {A} (l : list A) : Z := Z.of_nat (List.length l).

Section Component.
Variable keyMatchers : Command -> Key -> bool.
(** The [localFiles] memo of the current [config]. *)
Variable localFiles : list FileEntry.

Definition files (s : State) : list FileEntry :=
  match viewMode s with
  | local => localFiles
  | drive => driveFiles s
  end.

Definition setActiveIndex (f : Z -> Z) (s : State) : State :=
  {| activeIndex := f (activeIndex s); viewMode := viewMode s;
     driveFiles := driveFiles s; isDriveLoading := isDriveLoading s;
     listPending := listPending s |}.

Definition setViewMode (f : ViewMode -> ViewMode) (s : State) : State :=
  {| activeIndex := activeIndex s; viewMode := f (viewMode s);
     driveFiles := driveFiles s; isDriveLoading := isDriveLoading s;
     listPending := listPending s |}.

Definition setDriveFiles (l : list FileEntry) (s : State) : State :=
  {| activeIndex := activeIndex s; viewMode := viewMode s;
     driveFiles := l; isDriveLoading := isDriveLoading s;
     listPending := listPending s |}.

Definition setIsDriveLoading (b : bool) (s : State) : State :=
  {| activeIndex := activeIndex s; viewMode := viewMode s;
     driveFiles := driveFiles s; isDriveLoading := b;
     listPending := listPending s |}.

Definition setListPending (n : nat) (s : State) : State :=
  {| activeIndex := activeIndex s; viewMode := viewMode s;
     driveFiles := driveFiles s; isDriveLoading := isDriveLoading s;
     listPending := n |}.

(** The [useKeypress] callback; it always returns [true]. *)
Definition handleKey (s : State) (key : Key) : State * list Cmd :=
  if String.eqb (name key) "escape" then (s, [CmdOnClose])
  else if (String.eqb (name key) "return" || String.eqb (name key) "enter")%bool then
    match viewMode s, array_get (files s) (activeIndex s) with
    | drive, Some {| path := p; id := Some i |} =>
        if Js.truthy i
        then (s, [CmdFeedback info ("Downloading " ++ p ++ "...");
                  CmdDownloadFile i p])
        else (s, [CmdOnClose])
    | _, _ => (s, [CmdOnClose])
    end
  else if keyMatchers SAVE_TO_DRIVE key then
    match viewMode s, array_get (files s) (activeIndex s) with
    | local, Some activeFile =>
        (s, [CmdFeedback info ("Saving " ++ path activeFile ++ " to Drive...");
             CmdUploadFile (path activeFile)])
    | _, _ => (s, [])
    end
  else if keyMatchers IMPORT_FROM_DRIVE key then
    (setActiveIndex (fun _ => 0)
       (setViewMode (fun prev => match prev with local => drive | drive => local end) s),
     [])
  else if (keyMatchers MOVE_DOWN key || keyMatchers HISTORY_DOWN key)%bool then
    (setActiveIndex
       (fun prev => Z.min (prev + 1) (Z.max 0 (length (files s) - 1))) s,
     [])
  else if (keyMatchers MOVE_UP key || keyMatchers HISTORY_UP key)%bool then
    (setActiveIndex (fun prev => Z.max (prev - 1) 0) s, [])
  else if keyMatchers OPEN_EXTERNAL_EDITOR key then
    match viewMode s, array_get (files s) (activeIndex s) with
    | local, Some activeFile => (s, [CmdOpenFileInEditor (path activeFile)])
    | _, _ => (s, [])
    end
  else if keyMatchers OPEN_FILE_LOCATION key then
    match viewMode s, array_get (files s) (activeIndex s) with
    | local, Some activeFile => (s, [CmdOpenFolder (path activeFile)])
    | _, _ => (s, [])
    end
  else (s, []).

(** The body of the [useEffect] with dependencies [[viewMode, config]]. *)
Definition driveEffect (s : State) : State * list Cmd :=
  if (ViewMode_eqb (viewMode s) drive
      && (length (driveFiles s) =? 0)
      && negb (isDriveLoading s))%bool
  then (setListPending (S (listPending s)) (setIsDriveLoading true s),
        [CmdListFiles])
  else (s, []).

(** The [.then] callback of the list promise. *)
Definition toDriveEntries (f : list DriveFile) : list FileEntry :=
  map (fun item => {| path := file_name item; type := "Drive";
                      id := Some (file_id item) |}) f.

(** One reaction.  [config] is the session's one [Config] object, so
    after mounting the effect runs exactly when a render changed
    [viewMode].  A list settlement needs a pending list promise. *)
Definition step (s : State) (i : Input) : option (State * list Cmd) :=
  match i with
  | KeyPress key =>
      let (s1, c1) := handleKey s key in
      if ViewMode_eqb (viewMode s1) (viewMode s) then Some (s1, c1)
      else let (s2, c2) := driveEffect s1 in Some (s2, (c1 ++ c2)%list)
  | ListResolved f =>
      match listPending s with
      | O => None
      | S n =>
          Some (setListPending n
                  (setIsDriveLoading false (setDriveFiles (toDriveEntries f) s)),
                [])
      end
  | ListRejected e =>
      match listPending s with
      | O => None
      | S n =>
          Some (setListPending n (setIsDriveLoading false s),
                [CmdFeedback error ("[MdsBrowser] Failed to list Drive files: " ++ e)])
      end
  | DownloadResolved p =>
      Some (s, [CmdFeedback info ("File downloaded to: " ++ p); CmdOnClose])
  | DownloadRejected e =>
      Some (s, [CmdFeedback error ("Download failed: " ++ e); CmdOnClose])
  | UploadResolved p =>
      Some (s, [CmdFeedback info ("Successfully uploaded " ++ p ++ " to Drive.")])
  | UploadRejected e =>
      Some (s, [CmdFeedback error ("Upload failed: " ++ e)])
  end.

(** How the promise of [manager.listFiles()] comes back to the component. *)
Definition listSettlement (o : outcome (list DriveFile)) : Input :=
  match o with
  | Ok f => ListResolved f
  | Throw e => ListRejected e
  end.

(** A sequence of reactions, with everything asked of the outside. *)
Fixpoint run (s : State) (inputs : list Input) : option (State * list Cmd) :=
  match inputs with
  | [] => Some (s, [])
  | i :: rest =>
      match step s i with
      | None => None
      | Some (s1, c1) =>
          match run s1 rest with
          | None => None
          | Some (s2, c2) => Some (s2, (c1 ++ c2)%list)
          end
      end
  end.

(** Mounting: the initial state, then the first run of the effect. *)
Definition mount : State * list Cmd := driveEffect initialState.

(** The key reaches the branch of the handler named by the command. *)
Definition reachesToggle (key : Key) : bool :=
  (negb (String.eqb (name key) "escape")
   && negb (String.eqb (name key) "return" || String.eqb (name key) "enter")
   && negb (keyMatchers SAVE_TO_DRIVE key)
   && keyMatchers IMPORT_FROM_DRIVE key)%bool.

Definition reachesMoveDown (key : Key) : bool :=
  (negb (String.eqb (name key) "escape")
   && negb (String.eqb (name key) "return" || String.eqb (name key) "enter")
   && negb (keyMatchers SAVE_TO_DRIVE key)
   && negb (keyMatchers IMPORT_FROM_DRIVE key)
   && (keyMatchers MOVE_DOWN key || keyMatchers HISTORY_DOWN key))%bool.

Definition reachesMoveUp (key : Key) : bool :=
  (negb (String.eqb (name key) "escape")
   && negb (String.eqb (name key) "return" || String.eqb (name key) "enter")
   && negb (keyMatchers SAVE_TO_DRIVE key)
   && negb (keyMatchers IMPORT_FROM_DRIVE key)
   && negb (keyMatchers MOVE_DOWN key || keyMatchers HISTORY_DOWN key)
   && (keyMatchers MOVE_UP key || keyMatchers HISTORY_UP key))%bool.

End Component.

(** The invariant of the reachable states: exactly one list promise is
    pending while the loading flag is set, none otherwise; and the cache is
    empty while loading. *)
Definition Inv (s : State) : Prop :=
  listPending s = (if isDriveLoading s then 1 else 0)%nat
  /\ (isDriveLoading s = true -> driveFiles s = []).

(** The cache is empty and no list request is under way. *)
Definition IdleEmpty (s : State) : Prop :=
  driveFiles s = [] /\ isDriveLoading s = false /\ listPending s = 0%nat.

(** *** The scroll window, computed on every render *)

Definition availableHeight (terminalHeight : Z) : Z :=
  Z.max 5 (terminalHeight - 10).

(** [Math.floor(availableHeight / 2)] is [availableHeight / 2] on [Z]. *)
Definition startIdx (activeIndex availableHeight filesLength : Z) : Z :=
  Z.max 0 (Z.min (activeIndex - availableHeight / 2)
                 (filesLength - availableHeight)).

Definition endIdx (activeIndex availableHeight filesLength : Z) : Z :=
  startIdx activeIndex availableHeight filesLength + availableHeight.

Definition visibleFiles {A} (files : list A) (activeIndex availableHeight : Z)
  : list A :=
  Js.slice files
    (startIdx activeIndex availableHeight (length files))
    (endIdx activeIndex availableHeight (length files)).

(** Eight rows, for concrete windows. *)
Definition sampleRows : list string :=
  ["r0"; "r1"; "r2"; "r3"; "r4"; "r5"; "r6"; "r7"].

(** [clamp] as the specification's formula uses it. *)
Definition clamp (x lo hi : Z) : Z := Z.min hi (Z.max lo x).

Definition spec_start (cursorIndex viewportHeight listLength : Z) : Z :=
  clamp (cursorIndex - viewportHeight / 2) 0 (Z.max 0 (listLength - viewportHeight)).

(** *** [openFileInEditor] *)

(** What the callback reads: the setting, the two helpers of the core
    package, the process environment, and whether [useStdin] provides
    [setRawMode]. *)
Record EditorEnv := {
  preferredEditor : option string;     (* settings.general.preferredEditor *)
  getEditorCommand : string -> string;
  isGuiEditor : string -> bool;
  env_VISUAL : option string;          (* process.env['VISUAL'] *)
  env_EDITOR : option string;          (* process.env['EDITOR'] *)
  platform : string;                   (* process.platform *)
  hasSetRawMode : bool
}.

(** The template literal [`${status}`] of an integer. *)
Definition numberToString (n : Z) : string :=
  DecimalString.NilZero.string_of_int (Z.to_int n).

(** The command and the argument list, as resolved before the [try]. *)
Definition resolveEditor (e : EditorEnv) (filePath : string)
  : string * list string :=
  let '(command, args) :=
    match preferredEditor e with
    | Some t =>
        if Js.truthy t
        then (Some (getEditorCommand e t),
              if isGuiEditor e t then ["--wait"; filePath] else [filePath])
        else (None, [filePath])
    | None => (None, [filePath])
    end in
  let command' :=
    match command with
    | Some c =>
        if Js.truthy c then c
        else match env_VISUAL e, env_EDITOR e with
             | Some v, _ => v
             | None, Some ed => ed
             | None, None => if String.eqb (platform e) "win32" then "notepad" else "vi"
             end
    | None =>
        match env_VISUAL e, env_EDITOR e with
        | Some v, _ => v
        | None, Some ed => ed
        | None, None => if String.eqb (platform e) "win32" then "notepad" else "vi"
        end
    end in
  (command', args).

Definition openFileInEditor (e : EditorEnv) (filePath : string) : M unit :=
  let '(command, args) := resolveEditor e filePath in
  try_finally
    (try_catch
       (when (hasSetRawMode e) (tell (SetRawMode false)) ;;;
        r <- call (SpawnSync command args) ;;
        match spawn_error r with
        | Some err => throw err
        | None =>
            match status r with
            | Some n =>
                if negb (n =? 0)
                then throw ("External editor exited with status " ++ numberToString n)
                else ret tt
            | None => ret tt
            end
        end)%eff
       (fun err =>
          tell (EmitFeedback error "[MdsBrowser] external editor error" (Some err))))
    (when (hasSetRawMode e) (tell (SetRawMode true)) ;;;
     tell (EmitCoreEvent ExternalEditorClosed))%eff.

(** The three ways the editor process can end, read off the host's answer
    to [spawnSync]. *)
Inductive EditorExit :=
| ExitedZero          (* status 0 *)
| ExitedNonZero       (* a non-zero status *)
| SpawnFailed         (* [error] set in the result, or [spawnSync] threw *)
| NoStatus.           (* status null: ended by a signal *)

Definition editorExit (o : outcome SpawnResult) : EditorExit :=
  match o with
  | Throw _ => SpawnFailed
  | Ok r =>
      match spawn_error r, status r with
      | Some _, _ => SpawnFailed
      | None, Some n => if n =? 0 then ExitedZero else ExitedNonZero
      | None, None => NoStatus
      end
  end.

Definition isFailure (x : EditorExit) : bool :=
  match x with
  | ExitedNonZero | SpawnFailed => true
  | ExitedZero | NoStatus => false
  end.

(** The host's answer to the [spawnSync] call of [openFileInEditor]
    started after the trace [t]. *)
Definition spawnAnswer (w : World) (e : EditorEnv) (filePath : string)
    (t : Trace) : outcome SpawnResult :=
  let '(command, args) := resolveEditor e filePath in
  w (if hasSetRawMode e then t ++ [anyCall (SetRawMode false)] else t)%list
    _ (SpawnSync command args).

(** The calls [openFileInEditor] adds to the trace. *)
Definition editorCalls (w : World) (e : EditorEnv) (filePath : string)
    (t0 : Trace) : Trace :=
  skipn (List.length t0) (snd (openFileInEditor e filePath w t0)).

Definition defaultEditorEnv : EditorEnv :=
  {| preferredEditor := None;
     getEditorCommand := fun t => t;
     isGuiEditor := fun _ => false;
     env_VISUAL := None; env_EDITOR := Some "nano";
     platform := "linux"; hasSetRawMode := true |}.

(** *** Example key table, for concrete runs *)

Definition sampleMatchers (c : Command) (key : Key) : bool :=
  match c with
  | SAVE_TO_DRIVE => (meta key && String.eqb (name key) "u")%bool
  | IMPORT_FROM_DRIVE => (meta key && String.eqb (name key) "i")%bool
  | MOVE_DOWN => String.eqb (name key) "down"
  | HISTORY_DOWN => (ctrl key && String.eqb (name key) "n")%bool
  | MOVE_UP => String.eqb (name key) "up"
  | HISTORY_UP => (ctrl key && String.eqb (name key) "p")%bool
  | OPEN_EXTERNAL_EDITOR => (ctrl key && String.eqb (name key) "x")%bool
  | OPEN_FILE_LOCATION => (meta key && String.eqb (name key) "o")%bool
  end.

Definition plainKey (n : string) : Key :=
  {| name := n; ctrl := false; meta := false; shift := false |}.
Definition altKey (n : string) : Key :=
  {| name := n; ctrl := false; meta := true; shift := false |}.

(** *** Example session *)

Definition toggleKey : Key := altKey "i".

Definition sampleLocal : list FileEntry :=
  [ {| path := "/a/AGENTS.md"; type := "Agent"; id := None |};
    {| path := "/a/notes.md"; type := "Memory"; id := None |} ].

Definition sampleRemote : list DriveFile :=
  [ {| file_id := "xyz"; file_name := "spec.agents" |} ].

(** Switch to the Drive view, then the list arrives. *)
Definition sessionInputs : list Input :=
  [KeyPress toggleKey; ListResolved sampleRemote].

Definition loadingState : State :=
  {| activeIndex := 0; viewMode := drive; driveFiles := [];
     isDriveLoading := true; listPending := 1 |}.

Definition populatedState : State :=
  {| activeIndex := 0; viewMode := drive;
     driveFiles := [ {| path := "spec.agents"; type := "Drive"; id := Some "xyz" |} ];
     isDriveLoading := false; listPending := 0 |}.

Definition atLastRow : State :=
  {| activeIndex := 1; viewMode := local; driveFiles := [];
     isDriveLoading := false; listPending := 0 |}.

(** *** Further notions about sessions *)

(** The cursor addresses a row of the active list, or is 0 on an empty one. *)
Definition CursorInRange (localFiles : list FileEntry) (s : State) : Prop :=
  0 <= activeIndex s <= Z.max 0 (length (files localFiles s) - 1).

Definition isListSettlement (i : Input) : bool :=
  match i with
  | ListResolved _ | ListRejected _ => true
  | _ => false
  end.

(** How many list requests a command sequence holds, and how many list
    settlements an input sequence holds. *)
Definition countListFiles (c : list Cmd) : nat :=
  List.length (filter isListFiles c).

Definition countListSettlements (inputs : list Input) : nat :=
  List.length (filter isListSettlement inputs).

(** The listing of the last list request that was fulfilled, if any. *)
Fixpoint lastResolved (inputs : list Input) : option (list DriveFile) :=
  match inputs with
  | [] => None
  | i :: rest =>
      match lastResolved rest with
      | Some f => Some f
      | None => match i with ListResolved f => Some f | _ => None end
      end
  end.

Definition isEditorClosed (c : AnyCall) : bool :=
  match c with
  | existT _ _ (EmitCoreEvent ExternalEditorClosed) => true
  | _ => false
  end.

(** *** [openFolder] *)

(** What the callback reads from the process, and [dirname] of [node:path]. *)
Record FolderEnv := {
  folder_platform : string;            (* process.platform *)
  dirname : string -> string
}.

Definition folderCommand (platform : string) : string :=
  if String.eqb platform "win32" then "explorer"
  else if String.eqb platform "darwin" then "open"
  else "xdg-open".

(** The result of [spawnSync] is not looked at; only an exception it throws
    reaches the [catch]. *)
Definition openFolder (e : FolderEnv) (filePath : string) : M unit :=
  let folderPath := dirname e filePath in
  let command := folderCommand (folder_platform e) in
  let args := [folderPath] in
  try_catch
    (_ <- call (SpawnSync command args) ;; ret tt)%eff
    (fun err =>
       tell (EmitFeedback error "[MdsBrowser] error opening folder" (Some err))).

(** [dirname] on a POSIX path with a directory part and no trailing slash:
    everything before the last slash. *)
Fixpoint posixDirnameAux (s : string) : option string :=
  match s with
  | EmptyString => None
  | String c r =>
      match posixDirnameAux r with
      | Some d => Some (String c d)
      | None => if Ascii.eqb c "/" then Some EmptyString else None
      end
  end.

Definition linuxFolderEnv : FolderEnv :=
  {| folder_platform := "linux";
     dirname := fun p => match posixDirnameAux p with Some d => d | None => "." end |}.

End MdsBrowser.

(* ================================================================== *)
(** * Properties *)
(* ================================================================== *)

(** ** The scroll window *)

Module ScrollWindowFacts.
Import MdsBrowser.

Ltac unfold_window :=
  unfold endIdx, startIdx, spec_start, clamp, availableHeight in *.

Ltac window_arith :=
  unfold_window; Z.to_euclidean_division_equations; lia.

Lemma startIdx_nonneg c h n : 0 <= startIdx c h n.
Proof. window_arith. Qed.

Lemma startIdx_le_cursor c h n : 0 <= c -> 0 <= h -> startIdx c h n <= c.
Proof. intros; window_arith. Qed.

Lemma cursor_lt_endIdx c h n : c < n -> 1 <= h -> c < endIdx c h n.
Proof. intros; window_arith. Qed.

Lemma availableHeight_ge_5 rows : 5 <= availableHeight rows.
Proof. window_arith. Qed.

(** [slice] between two indices inside the array. *)
Lemma slice_get {A} (l : list A) (s e i : Z) :
  0 <= s -> s <= i -> i < e -> i < length l ->
  array_get (Js.slice l s e) (i - s) = array_get l i.
Proof.
  intros Hs Hsi Hie Hil. unfold array_get, Js.slice, length in *.
  destruct (i - s <? 0) eqn:E1; [lia|].
  destruct (i <? 0) eqn:E2; [lia|].
  destruct (s <? 0) eqn:E3; [lia|].
  destruct (e <? 0) eqn:E4; [lia|].
  rewrite nth_error_firstn, nth_error_skipn.
  replace (Z.to_nat (Z.min s (Z.of_nat (List.length l))) + Z.to_nat (i - s))%nat
    with (Z.to_nat i) by lia.
  destruct (Nat.ltb_spec (Z.to_nat (i - s))
              (Z.to_nat (Z.max (Z.min e (Z.of_nat (List.length l))
                                - Z.min s (Z.of_nat (List.length l))) 0)));
    [reflexivity | lia].
Qed.

(** [slice] from 0 to an end at or past the length is the whole array. *)
Lemma slice_all {A} (l : list A) (e : Z) :
  length l <= e -> Js.slice l 0 e = l.
Proof.
  intros He. unfold Js.slice, length in *.
  destruct (e <? 0) eqn:E; [lia|].
  change (0 <? 0) with false. cbv iota.
  assert (H0 : Z.to_nat (Z.min 0 (Z.of_nat (List.length l))) = 0%nat) by lia.
  rewrite H0. simpl skipn. apply firstn_all2. lia.
Qed.

(** C3.  For every cursor index, viewport height and list length the
    window start is [clamp(cursor - floor(height/2), 0, max(0, length -
    height))] and the end is [start + height]; when the list is at least
    as long as the viewport the window lies inside [0, length], when it is
    shorter the start is 0; and for height 10, cursor 50, length 200 the
    window is [45, 55). *)
Theorem scroll_window_formula (cursorIndex viewportHeight listLength : Z) :
  startIdx cursorIndex viewportHeight listLength
    = spec_start cursorIndex viewportHeight listLength
  /\ endIdx cursorIndex viewportHeight listLength
     = startIdx cursorIndex viewportHeight listLength + viewportHeight
  /\ (listLength >= viewportHeight ->
      0 <= startIdx cursorIndex viewportHeight listLength
      /\ endIdx cursorIndex viewportHeight listLength <= listLength)
  /\ (listLength < viewportHeight ->
      startIdx cursorIndex viewportHeight listLength = 0)
  /\ (startIdx 50 10 200 = 45 /\ endIdx 50 10 200 = 55).
Proof.
  repeat split; try reflexivity; try (intros; window_arith).
Qed.

Lemma scroll_window_formula_witness :
  (0 <= startIdx 50 10 200 /\ endIdx 50 10 200 <= 200)
  /\ startIdx 3 10 4 = 0.
Proof.
  split.
  - apply (proj1 (proj2 (proj2 (scroll_window_formula 50 10 200)))). lia.
  - apply (proj1 (proj2 (proj2 (proj2 (scroll_window_formula 3 10 4))))). lia.
Defined.

(** C10.  For a cursor inside the list and a viewport of height at least
    1, the window [startIdx, startIdx + h) contains the cursor, the
    rendered slice holds the selected row at offset [cursor - startIdx],
    and when the list is shorter than the viewport the rendered slice is
    the entire list. *)
Theorem window_contains_cursor {A} (files : list A) (a h : Z) :
  0 <= a < length files -> 1 <= h ->
  let s := startIdx a h (length files) in
  (s <= a < s + h)
  /\ array_get (visibleFiles files a h) (a - s) = array_get files a
  /\ (exists row, array_get files a = Some row /\ In row (visibleFiles files a h))
  /\ (length files < h ->
      length files < endIdx a h (length files)
      /\ visibleFiles files a h = files).
Proof.
  intros Ha Hh s.
  assert (Hs0 : 0 <= s) by apply startIdx_nonneg.
  assert (Hsa : s <= a) by (apply startIdx_le_cursor; lia).
  assert (Hae : a < s + h) by (apply (cursor_lt_endIdx a h (length files)); lia).
  assert (Hget : array_get (visibleFiles files a h) (a - s) = array_get files a).
  { unfold visibleFiles. apply slice_get; try lia. fold s. unfold endIdx. fold s. lia. }
  split; [lia|]. split; [exact Hget|]. split.
  - destruct (array_get files a) as [row|] eqn:E.
    + exists row. split; [reflexivity|].
      unfold array_get in Hget. destruct (a - s <? 0); [discriminate|].
      eapply nth_error_In. exact Hget.
    + exfalso. unfold array_get, length in *.
      destruct (a <? 0) eqn:E0; [lia|].
      apply nth_error_None in E. lia.
  - intros Hlt.
    assert (Hz : s = 0) by (subst s; window_arith).
    split.
    + unfold endIdx. fold s. lia.
    + unfold visibleFiles, endIdx. fold s. rewrite Hz.
      apply slice_all. lia.
Qed.

Lemma window_contains_cursor_witness :
  (startIdx 6 5 8 <= 6 < startIdx 6 5 8 + 5)
  /\ array_get (visibleFiles sampleRows 6 5) (6 - startIdx 6 5 8)
     = array_get sampleRows 6
  /\ visibleFiles (firstn 3 sampleRows) 2 5 = firstn 3 sampleRows.
Proof.
  destruct (window_contains_cursor sampleRows 6 5
              ltac:(unfold length; simpl; lia) ltac:(lia))
    as (Hin & Hget & _ & _).
  destruct (window_contains_cursor (firstn 3 sampleRows) 2 5
              ltac:(unfold length; simpl; lia) ltac:(lia))
    as (_ & _ & _ & Hall).
  split; [exact Hin|]. split; [exact Hget|].
  apply Hall. unfold length. simpl. lia.
Defined.

End ScrollWindowFacts.

(** ** The view state machine *)

Module ViewStateFacts.
Import MdsBrowser.
Local Open Scope string_scope.
Local Open Scope Z_scope.

Section Component.
Variable keyMatchers : Command -> Key -> bool.
Variable localFiles : list FileEntry.

Local Abbreviation handleKey := (handleKey keyMatchers localFiles).
Local Abbreviation step := (step keyMatchers localFiles).
Local Abbreviation run := (run keyMatchers localFiles).
Local Abbreviation files := (files localFiles).
Local Abbreviation reachesToggle := (reachesToggle keyMatchers).
Local Abbreviation reachesMoveUp := (reachesMoveUp keyMatchers).
Local Abbreviation reachesMoveDown := (reachesMoveDown keyMatchers).

Ltac break_match :=
  match goal with
  | |- context [match ?x with _ => _ end] => destruct x eqn:?
  | H : context [match ?x with _ => _ end] |- _ => destruct x eqn:?
  end.

Ltac handleKey_cases :=
  unfold MdsBrowser.handleKey in *; repeat break_match.

(** The handler touches only the cursor and the view mode, and never
    asks for a list itself. *)
Lemma handleKey_frame s key s1 c1 :
  handleKey s key = (s1, c1) ->
  driveFiles s1 = driveFiles s
  /\ isDriveLoading s1 = isDriveLoading s
  /\ listPending s1 = listPending s
  /\ ~ In CmdListFiles c1.
Proof.
  intros H. handleKey_cases; inversion H; subst; simpl;
    repeat split; auto; intuition discriminate.
Qed.

Lemma handleKey_toggle s key :
  reachesToggle key = true ->
  handleKey s key =
    (setActiveIndex (fun _ => 0)
       (setViewMode (fun prev => match prev with local => drive | drive => local end) s),
     []).
Proof.
  unfold MdsBrowser.reachesToggle, MdsBrowser.handleKey. intros H.
  repeat (apply andb_prop in H; destruct H as [H ?]).
  repeat match goal with
         | H : negb _ = true |- _ => apply negb_true_iff in H; rewrite H
         end.
  rewrite H0. reflexivity.
Qed.

Lemma handleKey_moveUp s key :
  reachesMoveUp key = true ->
  handleKey s key = (setActiveIndex (fun prev => Z.max (prev - 1) 0) s, []).
Proof.
  unfold MdsBrowser.reachesMoveUp, MdsBrowser.handleKey. intros H.
  repeat (apply andb_prop in H; destruct H as [H ?]).
  repeat match goal with
         | H : negb _ = true |- _ => apply negb_true_iff in H; rewrite H
         end.
  rewrite H0. reflexivity.
Qed.

Lemma handleKey_moveDown s key :
  reachesMoveDown key = true ->
  handleKey s key =
    (setActiveIndex
       (fun prev => Z.min (prev + 1) (Z.max 0 (length (files s) - 1))) s, []).
Proof.
  unfold MdsBrowser.reachesMoveDown, MdsBrowser.handleKey. intros H.
  repeat (apply andb_prop in H; destruct H as [H ?]).
  repeat match goal with
         | H : negb _ = true |- _ => apply negb_true_iff in H; rewrite H
         end.
  rewrite H0. reflexivity.
Qed.

(** The view mode changes only in the toggle branch. *)
Lemma handleKey_viewMode s key s1 c1 :
  handleKey s key = (s1, c1) ->
  viewMode s1 <> viewMode s -> reachesToggle key = true.
Proof.
  intros H Hne. unfold MdsBrowser.reachesToggle.
  handleKey_cases; inversion H; subst; simpl in *; try congruence;
    repeat match goal with
           | H : _ = true |- _ => rewrite H
           | H : _ = false |- _ => rewrite H
           end; reflexivity.
Qed.

(** A step that asks for the list is a toggle from the local view to the
    Drive view, taken with an empty cache and the loading flag down. *)
Lemma step_listFiles_gate s i s' c :
  step s i = Some (s', c) -> In CmdListFiles c ->
  (exists key, i = KeyPress key /\ reachesToggle key = true)
  /\ viewMode s = local /\ viewMode s' = drive
  /\ driveFiles s = [] /\ isDriveLoading s = false
  /\ c = [CmdListFiles].
Proof.
  intros Hstep Hin. destruct i as [key| f | e | p | e | p | e]; simpl in Hstep.
  - destruct (handleKey s key) as [s1 c1] eqn:Hk.
    destruct (handleKey_frame _ _ _ _ Hk) as (Hdf & Hld & Hlp & Hno).
    destruct (ViewMode_eqb (viewMode s1) (viewMode s)) eqn:Hvm.
    + inversion Hstep; subst. contradiction.
    + assert (Hne : viewMode s1 <> viewMode s)
        by (intro E; rewrite E in Hvm; destruct (viewMode s); discriminate).
      pose proof (handleKey_viewMode _ _ _ _ Hk Hne) as Htog.
      rewrite (handleKey_toggle s key Htog) in Hk. inversion Hk; subst s1 c1.
      unfold driveEffect in Hstep. simpl in Hstep.
      destruct (viewMode s) eqn:Hv; simpl in Hstep.
      * destruct (length (driveFiles s) =? 0) eqn:Hlen; simpl in Hstep.
        -- assert (Hempty : driveFiles s = []).
           { unfold length in Hlen. destruct (driveFiles s); [reflexivity|].
             simpl in Hlen. discriminate. }
           destruct (isDriveLoading s) eqn:Hl; simpl in Hstep.
           ++ inversion Hstep; subst. simpl in Hin. contradiction.
           ++ inversion Hstep as [[Hs' Hc]]. simpl. rewrite Hv.
              repeat split; eauto.
        -- inversion Hstep; subst. simpl in Hin. contradiction.
      * inversion Hstep; subst. simpl in Hin. contradiction.
  - destruct (listPending s); inversion Hstep; subst. contradiction.
  - destruct (listPending s); inversion Hstep; subst.
    simpl in Hin. intuition discriminate.
  - inversion Hstep; subst. simpl in Hin. intuition discriminate.
  - inversion Hstep; subst. simpl in Hin. intuition discriminate.
  - inversion Hstep; subst. simpl in Hin. intuition discriminate.
  - inversion Hstep; subst. simpl in Hin. intuition discriminate.
Qed.

(** A key press is always handled. *)
Lemma step_KeyPress_total s key : exists s' c, step s (KeyPress key) = Some (s', c).
Proof.
  simpl. destruct (handleKey s key) as [s1 c1].
  destruct (ViewMode_eqb (viewMode s1) (viewMode s)); [eauto|].
  destruct (driveEffect s1); eauto.
Qed.

Lemma step_Inv s i s' c : Inv s -> step s i = Some (s', c) -> Inv s'.
Proof.
  unfold Inv. intros [Hp Hl] Hstep.
  destruct i as [key| f | e | p | e | p | e]; simpl in Hstep;
    try (inversion Hstep; subst; auto; fail).
  - destruct (handleKey s key) as [s1 c1] eqn:Hk.
    destruct (handleKey_frame _ _ _ _ Hk) as (Hdf & Hld & Hlp & _).
    destruct (ViewMode_eqb (viewMode s1) (viewMode s)).
    + inversion Hstep; subst. rewrite Hdf, Hld, Hlp. auto.
    + unfold driveEffect in Hstep.
      destruct (ViewMode_eqb (viewMode s1) drive
                && (length (driveFiles s1) =? 0)
                && negb (isDriveLoading s1))%bool eqn:Hg;
        inversion Hstep; subst; simpl.
      * apply andb_prop in Hg. destruct Hg as [Hg Hnl].
        apply andb_prop in Hg. destruct Hg as [_ Hlen].
        apply negb_true_iff in Hnl. rewrite Hlp, Hp, <- Hld, Hnl.
        split; [reflexivity|]. intros _.
        unfold length in Hlen. destruct (driveFiles s1); [reflexivity|].
        simpl in Hlen. discriminate.
      * rewrite Hdf, Hld, Hlp. auto.
  - destruct (listPending s) eqn:Hn; inversion Hstep; subst; simpl.
    destruct (isDriveLoading s); [|discriminate].
    split; [congruence | discriminate].
  - destruct (listPending s) eqn:Hn; inversion Hstep; subst; simpl.
    destruct (isDriveLoading s); [|discriminate].
    split; [congruence | discriminate].
Qed.

Lemma Inv_initial : Inv initialState.
Proof. split; [reflexivity | discriminate]. Qed.

Lemma run_Inv inputs : forall s s' c,
  Inv s -> run s inputs = Some (s', c) -> Inv s'.
Proof.
  induction inputs as [|i rest IH]; intros s s' c HI Hrun; simpl in Hrun.
  - inversion Hrun; subst. exact HI.
  - destruct (step s i) as [[s1 c1]|] eqn:Hs; [|discriminate].
    destruct (run s1 rest) as [[s2 c2]|] eqn:Hr; [|discriminate].
    inversion Hrun; subst. eapply IH; [|exact Hr]. eapply step_Inv; eauto.
Qed.

(** In a reachable state with a populated cache nothing is pending, so no
    step empties the cache or asks for the list. *)
Lemma step_populated s i s' c :
  Inv s -> driveFiles s <> [] -> step s i = Some (s', c) ->
  driveFiles s' <> [] /\ ~ In CmdListFiles c.
Proof.
  intros HI Hne Hstep. split.
  - destruct HI as [Hp Hl].
    assert (Hnl : isDriveLoading s = false)
      by (destruct (isDriveLoading s); [exfalso; auto | reflexivity]).
    rewrite Hnl in Hp.
    destruct i as [key| f | e | p | e | p | e]; simpl in Hstep;
      try (inversion Hstep; subst; auto; fail);
      try (rewrite Hp in Hstep; discriminate).
    destruct (handleKey s key) as [s1 c1] eqn:Hk.
    destruct (handleKey_frame _ _ _ _ Hk) as (Hdf & Hld & Hlp & _).
    destruct (ViewMode_eqb (viewMode s1) (viewMode s)).
    + inversion Hstep; subst. congruence.
    + unfold driveEffect in Hstep.
      destruct (ViewMode_eqb (viewMode s1) drive
                && (length (driveFiles s1) =? 0)
                && negb (isDriveLoading s1))%bool;
        inversion Hstep; subst; simpl; congruence.
  - intros Hin.
    destruct (step_listFiles_gate _ _ _ _ Hstep Hin) as (_ & _ & _ & He & _).
    auto.
Qed.

Lemma run_populated inputs : forall s s' c,
  Inv s -> driveFiles s <> [] -> run s inputs = Some (s', c) ->
  driveFiles s' <> [] /\ ~ In CmdListFiles c.
Proof.
  induction inputs as [|i rest IH]; intros s s' c HI Hne Hrun; simpl in Hrun.
  - inversion Hrun; subst. auto.
  - destruct (step s i) as [[s1 c1]|] eqn:Hs; [|discriminate].
    destruct (run s1 rest) as [[s2 c2]|] eqn:Hr; [|discriminate].
    inversion Hrun; subst.
    destruct (step_populated _ _ _ _ HI Hne Hs) as [Hne1 Hno1].
    destruct (IH _ _ _ (step_Inv _ _ _ _ HI Hs) Hne1 Hr) as [Hne2 Hno2].
    split; [exact Hne2|]. intros Hin. apply in_app_or in Hin. tauto.
Qed.

(** While no list is asked for, an empty idle cache stays empty and idle. *)
Lemma step_IdleEmpty s i s' c :
  IdleEmpty s -> step s i = Some (s', c) -> ~ In CmdListFiles c -> IdleEmpty s'.
Proof.
  unfold IdleEmpty. intros (Hd & Hl & Hp) Hstep Hno.
  destruct i as [key| f | e | p | e | p | e]; simpl in Hstep;
    try (inversion Hstep; subst; auto; fail);
    try (rewrite Hp in Hstep; discriminate).
  destruct (handleKey s key) as [s1 c1] eqn:Hk.
  destruct (handleKey_frame _ _ _ _ Hk) as (Hdf & Hld & Hlp & _).
  destruct (ViewMode_eqb (viewMode s1) (viewMode s)).
  - inversion Hstep; subst. rewrite Hdf, Hld, Hlp. auto.
  - unfold driveEffect in Hstep.
    destruct (ViewMode_eqb (viewMode s1) drive
              && (length (driveFiles s1) =? 0)
              && negb (isDriveLoading s1))%bool;
      inversion Hstep; subst.
    + exfalso. apply Hno. apply in_or_app. right. left. reflexivity.
    + rewrite Hdf, Hld, Hlp. auto.
Qed.

Lemma run_IdleEmpty inputs : forall s s' c,
  IdleEmpty s -> run s inputs = Some (s', c) -> ~ In CmdListFiles c -> IdleEmpty s'.
Proof.
  induction inputs as [|i rest IH]; intros s s' c HI Hrun Hno; simpl in Hrun.
  - inversion Hrun; subst. exact HI.
  - destruct (step s i) as [[s1 c1]|] eqn:Hs; [|discriminate].
    destruct (run s1 rest) as [[s2 c2]|] eqn:Hr; [|discriminate].
    inversion Hrun; subst.
    apply (IH s1 s' c2); auto.
    + eapply step_IdleEmpty; eauto. intro Hin. apply Hno, in_or_app. auto.
    + intro Hin. apply Hno, in_or_app. auto.
Qed.

(** A toggle from the local view with an empty idle cache asks for the
    list, once. *)
Lemma toggle_fetches s key :
  IdleEmpty s -> viewMode s = local -> reachesToggle key = true ->
  exists s', step s (KeyPress key) = Some (s', [CmdListFiles])
             /\ viewMode s' = drive /\ isDriveLoading s' = true
             /\ activeIndex s' = 0.
Proof.
  intros (Hd & Hl & Hp) Hv Htog. simpl.
  rewrite (handleKey_toggle s key Htog). simpl. rewrite Hv. simpl.
  unfold driveEffect. simpl. rewrite Hv, Hd, Hl. simpl.
  eexists. split; [reflexivity|]. simpl. rewrite Hv. auto.
Qed.

(** C5.  In every state reachable from the initial one: a toggle resets
    the cursor to 0; a step asks for the remote list only if it switches
    the view from local to Drive while the cache is empty, the loading
    flag is down and no list request is pending; and once the cache is
    populated no later sequence of inputs asks for the list again (the
    cache stays populated). *)
Theorem toggleSource_fetch_gate (inputs : list Input) (s : State) (cmds : list Cmd) :
  run initialState inputs = Some (s, cmds) ->
  (forall key, reachesToggle key = true ->
     exists s' c, step s (KeyPress key) = Some (s', c)
                  /\ activeIndex s' = 0 /\ viewMode s' <> viewMode s)
  /\ (forall i s' c, step s i = Some (s', c) -> In CmdListFiles c ->
        viewMode s = local /\ viewMode s' = drive
        /\ driveFiles s = [] /\ isDriveLoading s = false
        /\ listPending s = 0%nat
        /\ c = [CmdListFiles])
  /\ (driveFiles s <> [] ->
      forall later s' c, run s later = Some (s', c) ->
        ~ In CmdListFiles c /\ driveFiles s' <> []).
Proof.
  intros Hrun.
  assert (HI : Inv s) by (eapply run_Inv; [apply Inv_initial | exact Hrun]).
  split; [|split].
  - intros key Htog. simpl. rewrite (handleKey_toggle s key Htog). simpl.
    assert (Hvm : ViewMode_eqb
                    match viewMode s with local => drive | drive => local end
                    (viewMode s) = false)
      by (destruct (viewMode s); reflexivity).
    rewrite Hvm. unfold driveEffect.
    match goal with
    | |- context [if ?g then _ else _] => destruct g
    end; do 2 eexists; (split; [reflexivity|]); simpl;
      (split; [reflexivity | destruct (viewMode s); discriminate]).
  - intros i s' c Hstep Hin.
    destruct (step_listFiles_gate _ _ _ _ Hstep Hin) as (_ & Hv & Hv' & Hd & Hl & Hc).
    destruct HI as [Hp _]. rewrite Hl in Hp. auto 10.
  - intros Hne later s' c Hlater.
    destruct (run_populated later _ _ _ HI Hne Hlater). auto.
Qed.

(** C6.  In every reachable state with a list request in flight: its
    rejection emits exactly one error feedback carrying the message,
    leaves the cache empty and clears the loading flag; its fulfilment
    clears the flag too; and after the rejection, as long as no list has
    been asked for again, the next toggle from the local view to the
    Drive view asks for it. *)
Theorem list_failure_feedback_and_retry
    (inputs : list Input) (s : State) (cmds : list Cmd) (e : Error) :
  run initialState inputs = Some (s, cmds) ->
  (0 < listPending s)%nat ->
  exists s',
    step s (ListRejected e)
      = Some (s', [CmdFeedback error ("[MdsBrowser] Failed to list Drive files: " ++ e)])
    /\ driveFiles s' = [] /\ isDriveLoading s' = false
    /\ (forall f, exists s'', step s (ListResolved f) = Some (s'', [])
                              /\ isDriveLoading s'' = false)
    /\ (forall later t c key,
          run s' later = Some (t, c) -> ~ In CmdListFiles c ->
          viewMode t = local -> reachesToggle key = true ->
          exists t', step t (KeyPress key) = Some (t', [CmdListFiles])
                     /\ viewMode t' = drive /\ isDriveLoading t' = true).
Proof.
  intros Hrun Hpend.
  assert (HI : Inv s) by (eapply run_Inv; [apply Inv_initial | exact Hrun]).
  destruct HI as [Hp Hl].
  destruct (isDriveLoading s) eqn:Hload; [|rewrite Hp in Hpend; lia].
  specialize (Hl eq_refl).
  simpl. rewrite Hp.
  eexists. split; [reflexivity|]. simpl.
  split; [exact Hl|]. split; [reflexivity|]. split.
  - intros f. eexists. split; reflexivity.
  - intros later t c key Hlater Hno Hv Htog.
    assert (Hidle : IdleEmpty t).
    { eapply run_IdleEmpty; [|exact Hlater|exact Hno].
      unfold IdleEmpty. simpl. auto. }
    destruct (toggle_fetches t key Hidle Hv Htog) as (t' & Hs & Hv' & Hl' & _).
    exists t'. auto.
Qed.

(** An input that leaves the state alone can be repeated. *)
Lemma run_repeat_fixed s i n :
  step s i = Some (s, []) -> run s (repeat i n) = Some (s, []).
Proof.
  intros H. induction n as [|n IH]; simpl; [reflexivity|].
  rewrite H, IH. reflexivity.
Qed.

(** C9.  Move-up pressed any number of times with the cursor at 0, and
    move-down pressed any number of times with the cursor at the last
    index [max(0, length - 1)] of the active list, leave the state (so
    the cursor) as it is and ask nothing of the outside. *)
Theorem moveCursor_idempotent_at_bounds (s : State) (up down : Key) (n : nat) :
  reachesMoveUp up = true -> reachesMoveDown down = true ->
  (activeIndex s = 0 ->
    run s (repeat (KeyPress up) n) = Some (s, []))
  /\ (activeIndex s = Z.max 0 (length (files s) - 1) ->
    run s (repeat (KeyPress down) n) = Some (s, [])).
Proof.
  intros Hup Hdown. split; intros Hc.
  - assert (Hstep : step s (KeyPress up) = Some (s, [])).
    { simpl. rewrite (handleKey_moveUp s up Hup). simpl.
      destruct s as [a v d l p]. simpl in *. subst a. simpl.
      destruct v; reflexivity. }
    apply run_repeat_fixed, Hstep.
  - assert (Hstep : step s (KeyPress down) = Some (s, [])).
    { simpl. rewrite (handleKey_moveDown s down Hdown). simpl.
      assert (Hfix : Z.min (activeIndex s + 1) (Z.max 0 (length (files s) - 1))
                     = activeIndex s) by lia.
      unfold setActiveIndex. rewrite Hfix.
      destruct s as [a v d l p]. simpl. destruct v; reflexivity. }
    apply run_repeat_fixed, Hstep.
Qed.

End Component.

(** *** Concrete sessions *)

Lemma mount_is_idle : mount = (initialState, []).
Proof. reflexivity. Qed.

(** With no credentials the list promise of [DriveManager.listFiles] is
    rejected, and the browser reports it. *)
Lemma signed_out_session :
  run sampleMatchers sampleLocal initialState
    [KeyPress toggleKey;
     listSettlement (fst (DriveManager.listFiles DriveManager.signedOutWorld []))]
  = Some ({| activeIndex := 0; viewMode := drive; driveFiles := [];
             isDriveLoading := false; listPending := 0 |},
          [CmdListFiles;
           CmdFeedback error "[MdsBrowser] Failed to list Drive files: no credentials"]).
Proof. reflexivity. Qed.

Lemma toggleSource_fetch_gate_witness :
  run sampleMatchers sampleLocal initialState sessionInputs
    = Some (populatedState, [CmdListFiles])
  /\ (~ In CmdListFiles (@nil Cmd) /\ driveFiles populatedState <> []).
Proof.
  split; [reflexivity|].
  apply (proj2 (proj2 (toggleSource_fetch_gate sampleMatchers sampleLocal
                         sessionInputs populatedState [CmdListFiles] eq_refl))
           ltac:(discriminate)
           [KeyPress toggleKey; KeyPress toggleKey] populatedState []).
  reflexivity.
Defined.

Lemma list_failure_feedback_and_retry_witness :
  exists s',
    step sampleMatchers sampleLocal loadingState (ListRejected "no credentials")
      = Some (s', [CmdFeedback error
                     "[MdsBrowser] Failed to list Drive files: no credentials"])
    /\ driveFiles s' = [] /\ isDriveLoading s' = false.
Proof.
  destruct (list_failure_feedback_and_retry sampleMatchers sampleLocal
              [KeyPress toggleKey] loadingState [CmdListFiles] "no credentials"
              eq_refl ltac:(simpl; lia))
    as (s' & Hstep & Hd & Hl & _).
  exists s'. auto.
Defined.

Lemma moveCursor_idempotent_at_bounds_witness :
  run sampleMatchers sampleLocal initialState
      (repeat (KeyPress (plainKey "up")) 3) = Some (initialState, [])
  /\ run sampleMatchers sampleLocal atLastRow
      (repeat (KeyPress (plainKey "down")) 3) = Some (atLastRow, []).
Proof.
  split.
  - apply (proj1 (moveCursor_idempotent_at_bounds sampleMatchers sampleLocal
                    initialState (plainKey "up") (plainKey "down") 3
                    eq_refl eq_refl)).
    reflexivity.
  - apply (proj2 (moveCursor_idempotent_at_bounds sampleMatchers sampleLocal
                    atLastRow (plainKey "up") (plainKey "down") 3
                    eq_refl eq_refl)).
    reflexivity.
Defined.

End ViewStateFacts.

(** ** The external editor *)

Module EditorFacts.
Import Eff MdsBrowser.
Local Open Scope string_scope.
Local Open Scope Z_scope.

Lemma rawModeAfter_app (r : bool) (a b : Trace) :
  rawModeAfter r (a ++ b)%list = rawModeAfter (rawModeAfter r a) b.
Proof.
  revert r. induction a as [|[R c] a IH]; intros r; simpl; [reflexivity|].
  destruct c; apply IH.
Qed.

Lemma skipn_prefix {A} (a b : list A) :
  skipn (List.length a) (a ++ b)%list = b.
Proof. induction a; simpl; auto. Qed.

Ltac run_editor :=
  unfold editorCalls, openFileInEditor, spawnAnswer, editorExit,
    try_finally, try_catch, bind, when, call, tell, ret, throw in *.

(** One exit path: the three facts about the trace it leaves. *)
Ltac editor_path pre command args :=
  split; [reflexivity|];
  split; [rewrite !rawModeAfter_app; reflexivity|];
  split;
  [ exists pre; eexists; exists command, args;
    rewrite <- !app_assoc; simpl; repeat split
  | rewrite <- !app_assoc, skipn_prefix; reflexivity ].

(** C7.  Whatever the host answers to [spawnSync] (status 0, a non-zero
    status, a spawn failure, or no status), [openFileInEditor] resolves;
    its calls are: raw mode off, the spawn, then raw mode on again and the
    closed event, so raw mode is on afterwards whenever [setRawMode] is
    available (and untouched otherwise); and exactly one error feedback is
    emitted on the two failure paths, none when the editor exits with 0. *)
Theorem openFileInEditor_restores_raw_mode
    (w : World) (e : EditorEnv) (filePath : string) (t0 : Trace) (r0 : bool) :
  let exit := editorExit (spawnAnswer w e filePath t0) in
  let t := snd (openFileInEditor e filePath w t0) in
  fst (openFileInEditor e filePath w t0) = Ok tt
  /\ rawModeAfter r0 t = (if hasSetRawMode e then true else rawModeAfter r0 t0)
  /\ (exists pre post command args,
        t = (t0 ++ pre ++ anyCall (SpawnSync command args) :: post)%list
        /\ existsb (isCallTo isSpawnSync) post = false
        /\ rawModeAfter false post = hasSetRawMode e)
  /\ List.length (filter isErrorFeedback (editorCalls w e filePath t0))
     = (if isFailure exit then 1 else 0)%nat.
Proof.
  run_editor.
  destruct (resolveEditor e filePath) as [command args].
  destruct (hasSetRawMode e) eqn:Hraw; simpl.
  - destruct (w (t0 ++ [anyCall (SetRawMode false)])%list SpawnResult
                (SpawnSync command args)) as [[st er]|err] eqn:Hw; simpl;
      [destruct er as [err|]; simpl;
         [| destruct st as [n|]; simpl; [destruct (n =? 0) eqn:Hn; simpl|]]|];
      editor_path [anyCall (SetRawMode false)] command args.
  - destruct (w t0 SpawnResult (SpawnSync command args)) as [[st er]|err] eqn:Hw;
      simpl;
      [destruct er as [err|]; simpl;
         [| destruct st as [n|]; simpl; [destruct (n =? 0) eqn:Hn; simpl|]]|];
      editor_path (@nil AnyCall) command args.
Qed.

End EditorFacts.

(** ** The entry resolver *)

Module ResolverFacts.
Import Resolver.
Local Open Scope string_scope.
Local Open Scope Z_scope.

(** *** The insertion-ordered set *)

Lemma set_has_In (s : Js.StrSet) (x : string) : Js.set_has s x = true <-> In x s.
Proof.
  unfold Js.set_has. rewrite existsb_exists. split.
  - intros (y & Hy & Heq). apply String.eqb_eq in Heq. subst. exact Hy.
  - intros H. exists x. split; [exact H | apply String.eqb_refl].
Qed.

Lemma set_add_In (s : Js.StrSet) (x y : string) :
  In y (Js.set_add s x) <-> In y s \/ y = x.
Proof.
  unfold Js.set_add. destruct (Js.set_has s x) eqn:E.
  - apply set_has_In in E. split; [auto|]. intros [H| ->]; assumption.
  - rewrite in_app_iff. simpl. intuition.
Qed.

Lemma set_add_NoDup (s : Js.StrSet) (x : string) :
  NoDup s -> NoDup (Js.set_add s x).
Proof.
  intros Hnd. unfold Js.set_add. destruct (Js.set_has s x) eqn:E; [exact Hnd|].
  assert (Hnot : ~ In x s).
  { intro Hin. apply set_has_In in Hin. congruence. }
  clear E. induction s as [|a s IH]; simpl.
  - constructor; [simpl; tauto | constructor].
  - inversion Hnd; subst. constructor.
    + rewrite in_app_iff. simpl. intros [H | [H | []]]; [auto|].
      subst. apply Hnot. left. reflexivity.
    + apply IH; [assumption|]. intro H. apply Hnot. right. exact H.
Qed.

Lemma fold_set_add_In (l : list string) : forall (acc : Js.StrSet) (y : string),
  In y (fold_left Js.set_add l acc) <-> In y acc \/ In y l.
Proof.
  induction l as [|x l IH]; intros acc y; simpl; [tauto|].
  rewrite IH, set_add_In. intuition.
Qed.

Lemma fold_set_add_NoDup (l : list string) : forall (acc : Js.StrSet),
  NoDup acc -> NoDup (fold_left Js.set_add l acc).
Proof.
  induction l as [|x l IH]; intros acc H; simpl; [exact H|].
  apply IH, set_add_NoDup, H.
Qed.

Lemma allPaths_NoDup (config : Config) : NoDup (allPaths config).
Proof. apply fold_set_add_NoDup. constructor. Qed.

Lemma allPaths_In (config : Config) (p : string) :
  In p (allPaths config) <-> In p (memoryFiles config) \/ In p (agentPaths config).
Proof.
  unfold allPaths, Js.set_of_list. rewrite fold_set_add_In, in_app_iff.
  simpl. tauto.
Qed.

(** *** [sort] *)

Section Sort.
Context {A : Type}.
Variable comparefn : A -> A -> Z.

Lemma sort_insert_Permutation (x : A) (l : list A) :
  Permutation (Js.sort_insert comparefn x l) (x :: l).
Proof.
  induction l as [|y l IH]; simpl; [reflexivity|].
  destruct (comparefn x y <=? 0); [reflexivity|].
  rewrite IH. apply perm_swap.
Qed.

Lemma sort_Permutation (l : list A) : Permutation (Js.sort comparefn l) l.
Proof.
  induction l as [|x l IH]; simpl; [reflexivity|].
  rewrite sort_insert_Permutation. constructor. exact IH.
Qed.

(** The comparator decides a relation [R] that is transitive on the
    elements [P] holds of. *)
Variable P : A -> Prop.
Variable R : A -> A -> Prop.
Hypothesis R_of_le : forall a b, P a -> P b -> comparefn a b <= 0 -> R a b.
Hypothesis R_of_gt : forall a b, P a -> P b -> comparefn a b > 0 -> R b a.
Hypothesis R_trans : forall a b c, P a -> P b -> P c -> R a b -> R b c -> R a c.

Lemma sort_insert_StronglySorted (x : A) (l : list A) :
  P x -> Forall P l -> StronglySorted R l ->
  StronglySorted R (Js.sort_insert comparefn x l).
Proof.
  intros Px. induction l as [|y l IH]; intros HP HS; simpl.
  - constructor; constructor.
  - inversion HP as [|? ? Py HPl]; subst. inversion HS as [|? ? HSl Hy]; subst.
    destruct (Z.leb_spec (comparefn x y) 0) as [Hle|Hgt].
    + constructor; [exact HS|]. constructor; [apply R_of_le; assumption|].
      rewrite Forall_forall in *. intros z Hz.
      apply (R_trans x y z); auto.
    + constructor; [apply IH; assumption|].
      rewrite Forall_forall in *. intros z Hz.
      apply (Permutation_in _ (sort_insert_Permutation x l)) in Hz.
      destruct Hz as [<- | Hz]; [apply R_of_gt; auto; lia | auto].
Qed.

Lemma sort_StronglySorted (l : list A) :
  Forall P l -> StronglySorted R (Js.sort comparefn l).
Proof.
  induction l as [|x l IH]; intros HP; simpl; [constructor|].
  inversion HP; subst. apply sort_insert_StronglySorted; auto.
  rewrite Forall_forall in *. intros z Hz.
  apply (Permutation_in _ (sort_Permutation l)) in Hz. auto.
Qed.
End Sort.

(** *** Classification *)

Lemma classify_path config p : path (classify config p) = p.
Proof. reflexivity. Qed.

Lemma classify_isKind config p : isKind (classify config p).
Proof.
  unfold isKind, classify. simpl.
  destruct (Js.set_has (agentPaths config) p || _ || _)%bool; auto.
Qed.

Lemma classify_registered config p :
  In p (agentPaths config) -> type (classify config p) = "Agent".
Proof.
  intros H. apply set_has_In in H. unfold classify. simpl. rewrite H. reflexivity.
Qed.

Lemma localFiles_Permutation lc config :
  Permutation (localFiles lc config) (map (classify config) (allPaths config)).
Proof. apply sort_Permutation. Qed.

Lemma localFiles_In lc config e :
  In e (localFiles lc config) <->
  exists p, In p (allPaths config) /\ e = classify config p.
Proof.
  split.
  - intros H. apply (Permutation_in _ (localFiles_Permutation lc config)) in H.
    apply in_map_iff in H. destruct H as (p & <- & Hp). eauto.
  - intros (p & Hp & ->).
    apply (Permutation_in _ (Permutation_sym (localFiles_Permutation lc config))).
    apply in_map. exact Hp.
Qed.

Lemma localFiles_paths lc config :
  Permutation (map path (localFiles lc config)) (allPaths config).
Proof.
  rewrite (Permutation_map path (localFiles_Permutation lc config)).
  rewrite map_map. simpl. rewrite map_id. reflexivity.
Qed.

(** *** Order *)

Section Collation.
Variable localeCompare : string -> string -> Z.
Hypothesis collation : consistentCollation localeCompare.

Let lc_antisym := proj1 collation.
Let lc_trans := proj1 (proj2 collation).
Let lc_kinds := proj2 (proj2 collation).

Lemma lc_flip a b : localeCompare a b > 0 -> localeCompare b a < 0.
Proof. intros H. pose proof (lc_antisym a b). lia. Qed.

Lemma lc_kinds_distinct a b :
  isKind a -> isKind b -> type a <> type b ->
  localeCompare (type a) (type b) <> 0.
Proof.
  intros [Ha|Ha] [Hb|Hb] Hne; rewrite Ha, Hb in *; try congruence.
  pose proof (lc_antisym "Agent" "Memory"). lia.
Qed.

Lemma entry_le_of_le a b :
  isKind a -> isKind b -> compareEntries localeCompare a b <= 0 ->
  entry_le localeCompare a b.
Proof.
  unfold compareEntries, entry_le. intros Ha Hb.
  destruct (String.eqb_spec (type a) (type b)) as [Heq|Hne]; simpl; intros H.
  - right. auto.
  - left. split; [exact Hne|].
    pose proof (lc_kinds_distinct a b Ha Hb Hne). lia.
Qed.

Lemma entry_le_of_gt a b :
  isKind a -> isKind b -> compareEntries localeCompare a b > 0 ->
  entry_le localeCompare b a.
Proof.
  unfold compareEntries, entry_le. intros Ha Hb.
  destruct (String.eqb_spec (type a) (type b)) as [Heq|Hne]; simpl; intros H.
  - right. split; [congruence|]. apply lc_flip in H. lia.
  - left. split; [congruence|]. apply lc_flip. exact H.
Qed.

Lemma entry_le_trans a b c :
  isKind a -> isKind b -> isKind c ->
  entry_le localeCompare a b -> entry_le localeCompare b c ->
  entry_le localeCompare a c.
Proof.
  unfold entry_le. intros Ha Hb Hc [[Hab Lab]|[Hab Lab]] [[Hbc Lbc]|[Hbc Lbc]].
  - exfalso.
    assert (Hac : type a = type c)
      by (destruct Ha as [Ha|Ha], Hb as [Hb|Hb], Hc as [Hc|Hc]; congruence).
    rewrite <- Hac in Lbc. pose proof (lc_antisym (type a) (type b)). lia.
  - left. rewrite <- Hbc. auto.
  - left. rewrite Hab. auto.
  - right. split; [congruence|]. eapply lc_trans; eauto.
Qed.

(** C4.  For every configuration the resolver's list has no two entries
    with the same path, holds exactly the union of the known document
    paths and the definitions' backing paths, and is sorted by kind
    first and by path within a kind, in the order of the host's
    collation. *)
Theorem localFiles_deduplicated_and_sorted (config : Config) :
  NoDup (map path (localFiles localeCompare config))
  /\ (forall p, In p (map path (localFiles localeCompare config)) <->
                In p (memoryFiles config) \/ In p (agentPaths config))
  /\ StronglySorted (entry_le localeCompare) (localFiles localeCompare config).
Proof.
  split; [|split].
  - apply (Permutation_NoDup (Permutation_sym (localFiles_paths _ config))).
    apply allPaths_NoDup.
  - intros p. rewrite <- allPaths_In. split; apply Permutation_in.
    + apply localFiles_paths.
    + apply Permutation_sym, localFiles_paths.
  - unfold localFiles.
    apply (sort_StronglySorted (compareEntries localeCompare) isKind).
    + exact entry_le_of_le.
    + exact entry_le_of_gt.
    + exact entry_le_trans.
    + apply Forall_forall. intros e He. apply in_map_iff in He.
      destruct He as (p & <- & _). apply classify_isKind.
Qed.
End Collation.

(** C8.  Every path of the definitions' backing-path set appears in the
    resolver's list, and every entry with that path is tagged Agent,
    whatever its name. *)
Theorem registered_path_is_Agent
    (localeCompare : string -> string -> Z) (config : Config) (p : string) :
  In p (agentPaths config) ->
  (exists e, In e (localFiles localeCompare config) /\ path e = p)
  /\ (forall e, In e (localFiles localeCompare config) -> path e = p ->
                type e = "Agent").
Proof.
  intros Hp. split.
  - exists (classify config p). split; [|reflexivity].
    apply localFiles_In. exists p. split; [|reflexivity].
    apply allPaths_In. right. exact Hp.
  - intros e He Hpath. apply localFiles_In in He. destruct He as (q & _ & ->).
    simpl in Hpath. subst q. apply classify_registered, Hp.
Qed.

(** *** The code-unit collation is consistent *)

Lemma codeUnitCompare_le a b :
  codeUnitCompare a b <= 0 <-> String_as_OT.lt a b \/ a = b.
Proof.
  unfold codeUnitCompare.
  destruct (String.compare a b) eqn:E.
  - apply String_as_OT.cmp_eq in E. split; [auto | lia].
  - apply String_as_OT.cmp_lt in E. split; [auto | lia].
  - split; [lia|]. intros [H| ->].
    + apply String_as_OT.cmp_lt in H. unfold String_as_OT.cmp in H. congruence.
    + assert (H : String_as_OT.cmp b b = Eq) by (apply String_as_OT.cmp_eq; reflexivity).
      unfold String_as_OT.cmp in H. congruence.
Qed.

Lemma codeUnitCompare_consistent : consistentCollation codeUnitCompare.
Proof.
  split; [|split].
  - intros a b. unfold codeUnitCompare.
    rewrite (String.compare_antisym a b). destruct (String.compare b a); reflexivity.
  - intros a b c Hab Hbc. apply codeUnitCompare_le in Hab, Hbc.
    apply codeUnitCompare_le.
    destruct Hab as [Hab| ->]; [|exact Hbc].
    destruct Hbc as [Hbc| <-]; [|auto].
    left. eapply String_as_OT.lt_trans; eauto.
  - vm_compute. discriminate.
Qed.

Lemma sampleConfig_localFiles :
  localFiles codeUnitCompare sampleConfig
  = [ {| path := "/a/AGENTS.md"; type := "Agent"; id := None |};
      {| path := "/a/custom.md"; type := "Agent"; id := None |};
      {| path := "/a/notes.md"; type := "Memory"; id := None |} ].
Proof. vm_compute. reflexivity. Qed.

Lemma localFiles_deduplicated_and_sorted_witness :
  NoDup (map path (localFiles codeUnitCompare sampleConfig))
  /\ StronglySorted (entry_le codeUnitCompare) (localFiles codeUnitCompare sampleConfig).
Proof.
  destruct (localFiles_deduplicated_and_sorted codeUnitCompare
              codeUnitCompare_consistent sampleConfig) as (Hnd & _ & Hs).
  split; assumption.
Defined.

Lemma registered_path_is_Agent_witness :
  exists e, In e (localFiles codeUnitCompare sampleConfig)
            /\ path e = "/a/custom.md" /\ type e = "Agent".
Proof.
  destruct (registered_path_is_Agent codeUnitCompare sampleConfig "/a/custom.md"
              ltac:(vm_compute; auto)) as [(e & He & Hp) Hall].
  exists e. auto.
Defined.

End ResolverFacts.

(** ** The Drive manager *)

Module DriveManagerFacts.
Import Eff DriveManager.
Local Open Scope string_scope.

(** C2 (as the code has it).  [listFiles] rejects exactly when obtaining
    the Drive client, before the guarded block, rejects, and then with the
    same error; once the client is obtained it resolves, and an error
    raised anywhere in the guarded block (folder lookup or creation, the
    list request) is logged once and turned into the empty list. *)
Theorem listFiles_fails_soft_after_client (w : World) (t : Trace) :
  (forall e t', listFiles w t = (Throw e, t') <-> getDriveClient w t = (Throw e, t'))
  /\ (forall c t1, getDriveClient w t = (Ok c, t1) ->
        (exists files t2, listFiles w t = (Ok files, t2))
        /\ (forall files t2, listFiles_body c w t1 = (Ok files, t2) ->
              listFiles w t = (Ok files, t2))
        /\ (forall e t2, listFiles_body c w t1 = (Throw e, t2) ->
              listFiles w t = (Ok [], (t2 ++ [listWarning e])%list))).
Proof.
  unfold listFiles, bind, try_catch, tell, ret, listWarning. split.
  - intros e t'. destruct (getDriveClient w t) as [[c|e0] t1] eqn:Hc.
    + split; [|discriminate].
      destruct (listFiles_body c w t1) as [[files|e1] t2]; discriminate.
    + split; intros H; inversion H; subst; reflexivity.
  - intros c t1 Hc. rewrite Hc.
    destruct (listFiles_body c w t1) as [[files|e1] t2] eqn:Hb.
    + split; [eauto|]. split; intros ? ? H; inversion H; subst; reflexivity.
    + split; [eauto|]. split; intros ? ? H; inversion H; subst; reflexivity.
Qed.

Lemma listFiles_fails_soft_after_client_witness :
  listFiles offlineWorld []
  = (Ok [], [anyCall GetOauthClient; anyCall GetOauthClient;
             anyCall (FilesList
                        "name='gemini-cli' and mimeType='application/vnd.google-apps.folder' and 'root' in parents and trashed=false"
                        "files(id, name)");
             listWarning "network unreachable"]).
Proof.
  exact (proj2 (proj2 (proj2 (listFiles_fails_soft_after_client offlineWorld [])
                         authClient [anyCall GetOauthClient] eq_refl))
           "network unreachable"
           [anyCall GetOauthClient; anyCall GetOauthClient;
            anyCall (FilesList
                       "name='gemini-cli' and mimeType='application/vnd.google-apps.folder' and 'root' in parents and trashed=false"
                       "files(id, name)")]
           eq_refl).
Defined.

(** C2, as stated, fails: when the credentials cannot be obtained the
    error is raised before the guarded block; [listFiles] rejects with it
    and logs nothing. *)
Lemma listFiles_rejects_when_signed_out :
  fst (listFiles signedOutWorld []) = Throw "no credentials"
  /\ existsb (isCallTo isDebugWarn) (snd (listFiles signedOutWorld [])) = false.
Proof. split; reflexivity. Qed.

(** *** [downloadFile] *)

Lemma endsWith_AGENTS_upper : Js.endsWith "spec.AGENTS" ".AGENTS" = true.
Proof. reflexivity. Qed.

(** When every call succeeds the destination directory is created, the
    data is written to the directory joined with the name, and that path
    is returned. *)
Lemma downloadFile_resolved (env : Env) (w : World) (t : Trace)
    (fileId fileName data : string) :
  w t _ GetOauthClient = Ok authClient ->
  w (t ++ [anyCall GetOauthClient])%list _ (FilesGet fileId) = Ok data ->
  w (t ++ [anyCall GetOauthClient; anyCall (FilesGet fileId)])%list _
    (FsMkdir (destDir env fileName)) = Ok tt ->
  w (t ++ [anyCall GetOauthClient; anyCall (FilesGet fileId);
           anyCall (FsMkdir (destDir env fileName))])%list _
    (FsWriteFile (path_join env (destDir env fileName) fileName) data) = Ok tt ->
  downloadFile env fileId fileName w t
  = (Ok (path_join env (destDir env fileName) fileName),
     (t ++ [anyCall GetOauthClient; anyCall (FilesGet fileId);
            anyCall (FsMkdir (destDir env fileName));
            anyCall (FsWriteFile (path_join env (destDir env fileName) fileName)
                       data)])%list).
Proof.
  intros H1 H2 H3 H4.
  unfold downloadFile, try_catch, bind, getDriveClient, call, ret.
  rewrite H1. rewrite H2.
  rewrite <- !app_assoc. simpl. rewrite H3, H4. reflexivity.
Qed.

(** C1 at the name of the specification's scenario.  The browser's own
    classification takes "spec.agents" for an agent file, but
    [downloadFile] tests the suffix '.AGENTS' as written, so the file goes
    to the working directory; only the upper-case suffix reaches the
    skills directory. *)
Theorem downloadFile_lowercase_agents_to_cwd (env : Env) (config : Config) :
  type (Resolver.classify config "spec.agents") = "Agent"
  /\ destDir env "spec.agents" = cwd env
  /\ destDir env "spec.AGENTS" = path_join env (getGlobalGeminiDir env) "skills"
  /\ downloadFile posixEnv "xyz" "spec.agents" healthyWorld []
     = (Ok "/work/spec.agents",
        [anyCall GetOauthClient; anyCall (FilesGet "xyz");
         anyCall (FsMkdir "/work");
         anyCall (FsWriteFile "/work/spec.agents" "# contents")]).
Proof.
  split; [|repeat split].
  unfold Resolver.classify. simpl.
  destruct (Js.set_has (Resolver.agentPaths config) "spec.agents"); reflexivity.
Qed.

End DriveManagerFacts.

(** ** More on the scroll window *)

Module ScrollWindowExtra.
Import MdsBrowser ScrollWindowFacts.

Lemma startIdx_le_length c h n : 0 <= h -> 0 <= n -> startIdx c h n <= n.
Proof. intros; window_arith. Qed.

(** The rendered slice fills the viewport whenever the list has enough rows,
    and is the whole list otherwise, wherever the cursor is. *)
Theorem visibleFiles_length {A} (files : list A) (a h : Z) :
  0 <= h ->
  length (visibleFiles files a h) = Z.min h (length files).
Proof.
  intros Hh. unfold visibleFiles, endIdx.
  set (s := startIdx a h (length files)).
  assert (Hs0 : 0 <= s) by apply startIdx_nonneg.
  assert (Hsn : s <= Z.max 0 (length files - h)) by (subst s; window_arith).
  unfold Js.slice, length in *.
  destruct (s <? 0) eqn:E1; [lia|].
  destruct (s + h <? 0) eqn:E2; [lia|].
  rewrite length_firstn, length_skipn. lia.
Qed.

Lemma visibleFiles_length_witness :
  length (visibleFiles sampleRows 6 5) = Z.min 5 (length sampleRows).
Proof. apply (visibleFiles_length sampleRows 6 5). lia. Defined.

(** The row rendered at offset [idx] is the row [startIdx + idx] of the list
    (the [absoluteIndex] of the render loop), for every offset below the
    viewport height; there is no row at or past that height. *)
Theorem visibleFiles_row {A} (files : list A) (a h idx : Z) :
  0 <= h -> 0 <= idx ->
  array_get (visibleFiles files a h) idx
  = if idx <? h
    then array_get files (startIdx a h (length files) + idx)
    else None.
Proof.
  intros Hh Hi. unfold visibleFiles, endIdx.
  set (s := startIdx a h (length files)).
  assert (Hs0 : 0 <= s) by apply startIdx_nonneg.
  assert (Hsn : s <= Z.max 0 (length files - h)) by (subst s; window_arith).
  unfold array_get, Js.slice, length in *.
  destruct (idx <? 0) eqn:E0; [lia|].
  destruct (s <? 0) eqn:E1; [lia|].
  destruct (s + h <? 0) eqn:E2; [lia|].
  rewrite nth_error_firstn, nth_error_skipn.
  set (len := Z.of_nat (List.length files)) in *.
  destruct (Z.ltb_spec idx h) as [Hlt|Hge].
  - destruct (s + idx <? 0) eqn:E3; [lia|].
    replace (Z.to_nat (Z.min s len) + Z.to_nat idx)%nat with (Z.to_nat (s + idx)) by lia.
    destruct (Nat.ltb_spec (Z.to_nat idx)
                (Z.to_nat (Z.max (Z.min (s + h) len - Z.min s len) 0)));
      [reflexivity|].
    symmetry. apply nth_error_None. subst len. lia.
  - destruct (Nat.ltb_spec (Z.to_nat idx)
                (Z.to_nat (Z.max (Z.min (s + h) len - Z.min s len) 0)));
      [lia | reflexivity].
Qed.

Lemma visibleFiles_row_witness :
  array_get (visibleFiles sampleRows 6 5) 2
  = array_get sampleRows (startIdx 6 5 (length sampleRows) + 2).
Proof. apply (visibleFiles_row sampleRows 6 5 2); lia. Defined.

(** When the cursor is at least half a viewport from the top and the window
    still fits below it, the selected row sits [floor(h/2)] rows below the
    top of the window. *)
Theorem cursor_centred (a h n : Z) :
  h / 2 <= a -> a - h / 2 <= n - h ->
  a - startIdx a h n = h / 2.
Proof. intros; unfold startIdx; lia. Qed.

Lemma cursor_centred_witness : 50 - startIdx 50 10 200 = 10 / 2.
Proof. apply cursor_centred; vm_compute; discriminate. Defined.

(** Moving the cursor down by one row never scrolls the window up and never
    scrolls it by more than one row. *)
Theorem window_scrolls_by_at_most_one (a h n : Z) :
  0 <= startIdx (a + 1) h n - startIdx a h n <= 1.
Proof. unfold startIdx. lia. Qed.

End ScrollWindowExtra.

(** ** More on the view state machine *)

Module ViewStateExtra.
Import MdsBrowser ViewStateFacts.
Local Open Scope string_scope.
Local Open Scope Z_scope.

Section Component.
Variable keyMatchers : Command -> Key -> bool.
Variable localFiles : list FileEntry.

Local Abbreviation handleKey := (handleKey keyMatchers localFiles).
Local Abbreviation step := (step keyMatchers localFiles).
Local Abbreviation run := (run keyMatchers localFiles).
Local Abbreviation files := (files localFiles).
Local Abbreviation CursorInRange := (CursorInRange localFiles).

Ltac break_match :=
  match goal with
  | |- context [match ?x with _ => _ end] => destruct x eqn:?
  | H : context [match ?x with _ => _ end] |- _ => destruct x eqn:?
  end.

Ltac handleKey_cases :=
  unfold MdsBrowser.handleKey in *; repeat break_match.

Lemma handleKey_CursorInRange s key s1 c1 :
  CursorInRange s -> handleKey s key = (s1, c1) -> CursorInRange s1.
Proof.
  unfold MdsBrowser.CursorInRange. intros HC H.
  handleKey_cases; inversion H; subst; simpl;
    unfold MdsBrowser.files, length in *; simpl in *; lia.
Qed.

Lemma driveEffect_view s s' c :
  driveEffect s = (s', c) ->
  activeIndex s' = activeIndex s /\ viewMode s' = viewMode s
  /\ driveFiles s' = driveFiles s.
Proof.
  unfold driveEffect. intros H.
  destruct (_ && _ && _)%bool; inversion H; subst; simpl; auto.
Qed.

Lemma step_CursorInRange s i s' c :
  Inv s -> CursorInRange s -> step s i = Some (s', c) -> CursorInRange s'.
Proof.
  intros [Hp Hl] HC Hstep.
  destruct i as [key| f | e | p | e | p | e]; simpl in Hstep;
    try (inversion Hstep; subst; exact HC).
  - destruct (handleKey s key) as [s1 c1] eqn:Hk.
    pose proof (handleKey_CursorInRange _ _ _ _ HC Hk) as HC1.
    destruct (ViewMode_eqb (viewMode s1) (viewMode s)).
    + inversion Hstep; subst. exact HC1.
    + destruct (driveEffect s1) as [s2 c2] eqn:He.
      inversion Hstep; subst.
      destruct (driveEffect_view _ _ _ He) as (Ha & Hv & Hd).
      unfold MdsBrowser.CursorInRange, MdsBrowser.files in *.
      rewrite Ha, Hv, Hd. exact HC1.
  - destruct (listPending s) eqn:Hn; inversion Hstep; subst.
    destruct (isDriveLoading s) eqn:Hload; [|discriminate].
    specialize (Hl eq_refl).
    unfold MdsBrowser.CursorInRange, MdsBrowser.files, length in *. simpl.
    destruct (viewMode s); [exact HC|].
    rewrite Hl in HC. simpl in HC. lia.
  - destruct (listPending s) eqn:Hn; inversion Hstep; subst.
    unfold MdsBrowser.CursorInRange, MdsBrowser.files in *. simpl. exact HC.
Qed.

Lemma run_Inv_CursorInRange inputs : forall s s' c,
  Inv s -> CursorInRange s -> run s inputs = Some (s', c) ->
  Inv s' /\ CursorInRange s'.
Proof.
  induction inputs as [|i rest IH]; intros s s' c HI HC Hrun; simpl in Hrun.
  - inversion Hrun; subst. auto.
  - destruct (step s i) as [[s1 c1]|] eqn:Hs; [|discriminate].
    destruct (MdsBrowser.run keyMatchers localFiles s1 rest) as [[s2 c2]|] eqn:Hr;
      [|discriminate].
    inversion Hrun; subst. eapply IH; [| |exact Hr].
    + eapply step_Inv; eauto.
    + eapply step_CursorInRange; eauto.
Qed.


(** At most one list request is ever in flight; the loading flag is up
    exactly while one is, and the cache is empty during that time. *)
Theorem one_list_request_at_a_time (inputs : list Input) (s : State) (cmds : list Cmd) :
  run initialState inputs = Some (s, cmds) ->
  (listPending s <= 1)%nat
  /\ (isDriveLoading s = true <-> listPending s = 1%nat)
  /\ (isDriveLoading s = true -> driveFiles s = []).
Proof.
  intros Hrun.
  destruct (run_Inv keyMatchers localFiles inputs _ _ _ Inv_initial Hrun) as [Hp Hl].
  destruct (isDriveLoading s); rewrite Hp; repeat split; auto; try lia; discriminate.
Qed.

Lemma countListFiles_app c1 c2 :
  countListFiles (c1 ++ c2)%list = (countListFiles c1 + countListFiles c2)%nat.
Proof. unfold countListFiles. rewrite filter_app, length_app. reflexivity. Qed.

Lemma countListFiles_none c : ~ In CmdListFiles c -> countListFiles c = 0%nat.
Proof.
  unfold countListFiles. induction c as [|x c IH]; intros H; [reflexivity|].
  simpl. destruct x; simpl; try (apply IH; intro; apply H; right; assumption).
  exfalso. apply H. left. reflexivity.
Qed.

Lemma step_accounting s i s' c :
  step s i = Some (s', c) ->
  (countListFiles c + listPending s
   = (if isListSettlement i then 1 else 0) + listPending s')%nat.
Proof.
  intros Hstep.
  destruct i as [key| f | e | p | e | p | e]; simpl in Hstep;
    try (inversion Hstep; subst; reflexivity).
  - destruct (handleKey s key) as [s1 c1] eqn:Hk.
    destruct (handleKey_frame _ _ _ _ _ _ Hk) as (_ & _ & Hlp & Hno).
    apply countListFiles_none in Hno.
    destruct (ViewMode_eqb (viewMode s1) (viewMode s)).
    + inversion Hstep; subst. simpl. lia.
    + unfold driveEffect in Hstep.
      destruct (_ && _ && _)%bool; inversion Hstep; subst;
        rewrite countListFiles_app, Hno; simpl; lia.
  - destruct (listPending s) eqn:Hn; inversion Hstep; subst. simpl. lia.
  - destruct (listPending s) eqn:Hn; inversion Hstep; subst. simpl. lia.
Qed.

Lemma run_accounting inputs : forall s s' c,
  run s inputs = Some (s', c) ->
  (countListFiles c + listPending s
   = countListSettlements inputs + listPending s')%nat.
Proof.
  induction inputs as [|i rest IH]; intros s s' c Hrun; simpl in Hrun.
  - inversion Hrun; subst. reflexivity.
  - destruct (step s i) as [[s1 c1]|] eqn:Hs; [|discriminate].
    destruct (MdsBrowser.run keyMatchers localFiles s1 rest) as [[s2 c2]|] eqn:Hr;
      [|discriminate].
    inversion Hrun; subst.
    pose proof (step_accounting _ _ _ _ Hs). pose proof (IH _ _ _ Hr).
    rewrite countListFiles_app. unfold countListSettlements in *. simpl.
    destruct (isListSettlement i); simpl; lia.
Qed.

(** Over a whole session the list requests issued are the ones that have
    settled plus the one still in flight: every request but the first is
    issued after the previous one has settled. *)
Theorem list_requests_accounted (inputs : list Input) (s : State) (cmds : list Cmd) :
  run initialState inputs = Some (s, cmds) ->
  countListFiles cmds = (countListSettlements inputs + listPending s)%nat
  /\ (countListFiles cmds <= countListSettlements inputs + 1)%nat.
Proof.
  intros Hrun. pose proof (run_accounting _ _ _ _ Hrun) as H. simpl in H.
  destruct (run_Inv keyMatchers localFiles inputs _ _ _ Inv_initial Hrun) as [Hp _].
  destruct (isDriveLoading s); lia.
Qed.

Lemma step_driveFiles s i s' c :
  step s i = Some (s', c) ->
  driveFiles s' = match i with
                  | ListResolved f => toDriveEntries f
                  | _ => driveFiles s
                  end.
Proof.
  intros Hstep.
  destruct i as [key| f | e | p | e | p | e]; simpl in Hstep;
    try (inversion Hstep; subst; reflexivity).
  - destruct (handleKey s key) as [s1 c1] eqn:Hk.
    destruct (handleKey_frame _ _ _ _ _ _ Hk) as (Hdf & _).
    destruct (ViewMode_eqb (viewMode s1) (viewMode s)).
    + inversion Hstep; subst. exact Hdf.
    + destruct (driveEffect s1) as [s2 c2] eqn:He. inversion Hstep; subst.
      destruct (driveEffect_view _ _ _ He) as (_ & _ & Hd). congruence.
  - destruct (listPending s); inversion Hstep; subst. reflexivity.
  - destruct (listPending s); inversion Hstep; subst. reflexivity.
Qed.

Lemma run_driveFiles inputs : forall s s' c,
  run s inputs = Some (s', c) ->
  driveFiles s' = match lastResolved inputs with
                  | Some f => toDriveEntries f
                  | None => driveFiles s
                  end.
Proof.
  induction inputs as [|i rest IH]; intros s s' c Hrun; simpl in Hrun.
  - inversion Hrun; subst. reflexivity.
  - destruct (step s i) as [[s1 c1]|] eqn:Hs; [|discriminate].
    destruct (MdsBrowser.run keyMatchers localFiles s1 rest) as [[s2 c2]|] eqn:Hr;
      [|discriminate].
    inversion Hrun; subst. rewrite (IH _ _ _ Hr). simpl.
    destruct (lastResolved rest); [reflexivity|].
    rewrite (step_driveFiles _ _ _ _ Hs). destruct i; reflexivity.
Qed.

(** The cache holds exactly the last listing that arrived (nothing before
    the first): key presses, rejected requests and upload or download
    settlements never alter it.  So every cached entry is tagged 'Drive' and
    carries the id and the name of a listed file. *)
Theorem cache_is_last_listing (inputs : list Input) (s : State) (cmds : list Cmd) :
  run initialState inputs = Some (s, cmds) ->
  driveFiles s = toDriveEntries (match lastResolved inputs with
                                 | Some f => f
                                 | None => []
                                 end)
  /\ Forall (fun e => type e = "Drive" /\ exists i, id e = Some i) (driveFiles s).
Proof.
  intros Hrun.
  assert (H : driveFiles s = toDriveEntries (match lastResolved inputs with
                                             | Some f => f
                                             | None => []
                                             end)).
  { rewrite (run_driveFiles _ _ _ _ Hrun). destruct (lastResolved inputs); reflexivity. }
  split; [exact H|]. rewrite H. unfold toDriveEntries.
  apply Forall_forall. intros e He. apply in_map_iff in He.
  destruct He as (item & <- & _). simpl. eauto.
Qed.

(** Whatever a key press asks for concerns the row under the cursor: an
    upload, an editor or a folder opening is asked only in the local view
    and for the path of that row; a download only in the Drive view and for
    the (non-empty) id and the name of that row.  With no row under the
    cursor none of them is asked. *)
Theorem handleKey_acts_on_selection (s : State) (key : Key) :
  (forall p,
     In (CmdUploadFile p) (snd (handleKey s key))
     \/ In (CmdOpenFileInEditor p) (snd (handleKey s key))
     \/ In (CmdOpenFolder p) (snd (handleKey s key)) ->
     viewMode s = local
     /\ exists row, array_get (files s) (activeIndex s) = Some row /\ path row = p)
  /\ (forall i p,
        In (CmdDownloadFile i p) (snd (handleKey s key)) ->
        viewMode s = drive /\ i <> ""
        /\ exists row, array_get (files s) (activeIndex s) = Some row
                       /\ path row = p /\ id row = Some i).
Proof.
  split.
  - intros p H. handleKey_cases; simpl in H;
      repeat match goal with
             | H : _ \/ _ |- _ => destruct H
             | H : False |- _ => contradiction
             end;
      try discriminate;
      match goal with
      | H : _ = _ |- _ => inversion H; subst; clear H
      end;
      (split; [reflexivity|]); eexists; (split; [reflexivity|]); reflexivity.
  - intros i p H. handleKey_cases; simpl in H;
      repeat match goal with
             | H : _ \/ _ |- _ => destruct H
             | H : False |- _ => contradiction
             end;
      try discriminate;
      match goal with
      | H : CmdDownloadFile _ _ = _ |- _ => inversion H; subst; clear H
      end.
    split; [reflexivity|]. split.
    + intro E. subst. discriminate.
    + eexists. split; [reflexivity|]. simpl. auto.
Qed.

(** A key press closes the overlay exactly when it is escape, or return or
    enter that does not start a download; and a key press that closes, or
    that asks for an upload, a download, an editor or a folder, leaves the
    state as it is. *)
Theorem handleKey_closes (s : State) (key : Key) :
  (In CmdOnClose (snd (handleKey s key)) <->
     name key = "escape"
     \/ ((name key = "return" \/ name key = "enter")
         /\ forall i p, ~ In (CmdDownloadFile i p) (snd (handleKey s key))))
  /\ (snd (handleKey s key) <> [] -> fst (handleKey s key) = s).
Proof.
  split.
  - unfold MdsBrowser.handleKey.
    destruct (String.eqb_spec (name key) "escape") as [He|He].
    { simpl. split; auto. }
    destruct (String.eqb_spec (name key) "return") as [Hr|Hr];
      destruct (String.eqb_spec (name key) "enter") as [Hn|Hn]; simpl.
    1-3: split;
           [ intros H; right; split; [auto|]; intros i p Hd;
             repeat break_match; simpl in *; intuition discriminate
           | intros [Hc|[_ Hnd]]; [contradiction|];
             repeat break_match; simpl in *; auto;
             exfalso; eapply Hnd; right; left; reflexivity ].
    split.
    + intros H. exfalso. repeat break_match; simpl in H; intuition discriminate.
    + intros [Hc|[[Hc|Hc] _]]; contradiction.
  - intros Hne. handleKey_cases; simpl in *; try reflexivity; congruence.
Qed.

End Component.

(** *** Concrete sessions *)


Lemma one_list_request_at_a_time_witness :
  (listPending loadingState <= 1)%nat /\ driveFiles loadingState = [].
Proof.
  destruct (one_list_request_at_a_time sampleMatchers sampleLocal
              [KeyPress toggleKey] loadingState [CmdListFiles] eq_refl)
    as (Hle & _ & Hempty).
  split; [exact Hle | apply Hempty; reflexivity].
Defined.

Lemma list_requests_accounted_witness :
  countListFiles [CmdListFiles]
  = (countListSettlements sessionInputs + listPending populatedState)%nat.
Proof.
  apply (list_requests_accounted sampleMatchers sampleLocal sessionInputs
           populatedState [CmdListFiles] eq_refl).
Defined.

Lemma cache_is_last_listing_witness :
  driveFiles populatedState = toDriveEntries sampleRemote.
Proof.
  apply (cache_is_last_listing sampleMatchers sampleLocal sessionInputs
           populatedState [CmdListFiles] eq_refl).
Defined.

Lemma handleKey_acts_on_selection_witness :
  viewMode initialState = local
  /\ exists row, array_get (files sampleLocal initialState) (activeIndex initialState)
                 = Some row /\ path row = "/a/AGENTS.md".
Proof.
  apply (proj1 (handleKey_acts_on_selection sampleMatchers sampleLocal
                  initialState (altKey "u")) "/a/AGENTS.md").
  left. simpl. right. left. reflexivity.
Defined.

Lemma handleKey_closes_witness :
  In CmdOnClose (snd (handleKey sampleMatchers sampleLocal initialState
                        (plainKey "return"))).
Proof.
  apply (proj1 (handleKey_closes sampleMatchers sampleLocal initialState
                  (plainKey "return"))).
  right. split; [left; reflexivity|]. intros i p H. simpl in H.
  destruct H as [H|[]]. discriminate.
Defined.

End ViewStateExtra.

(** ** More on the external editor and the folder opener *)

Module EditorExtra.
Import Eff MdsBrowser EditorFacts.
Local Open Scope string_scope.
Local Open Scope Z_scope.

(** The argument list is the file path, preceded by '--wait' exactly when a
    preferred editor is set and is graphical (also when its command is empty
    and the command comes from the environment).  A non-empty command of the
    preferred editor wins over the environment; and the command is empty
    only if the variable it is read from holds the empty string. *)
Theorem resolveEditor_order (e : EditorEnv) (filePath : string) :
  let command := fst (resolveEditor e filePath) in
  let args := snd (resolveEditor e filePath) in
  (args = (if match preferredEditor e with
              | Some t => Js.truthy t && isGuiEditor e t
              | None => false
              end
           then ["--wait"; filePath] else [filePath]))
  /\ (forall t, preferredEditor e = Some t -> t <> "" ->
                getEditorCommand e t <> "" -> command = getEditorCommand e t)
  /\ (env_VISUAL e <> Some "" ->
      (env_VISUAL e = None -> env_EDITOR e <> Some "") ->
      command <> "").
Proof.
  unfold resolveEditor. split; [|split].
  - destruct (preferredEditor e) as [t|]; [|reflexivity].
    destruct (Js.truthy t); [|reflexivity].
    destruct (isGuiEditor e t); reflexivity.
  - intros t Ht Hne Hc. rewrite Ht. unfold Js.truthy.
    destruct (String.eqb_spec t ""); [contradiction|]. simpl.
    unfold Js.truthy. destruct (String.eqb_spec (getEditorCommand e t) "");
      [contradiction | reflexivity].
  - intros HV HE.
    assert (Henv : match env_VISUAL e, env_EDITOR e with
                   | Some v, _ => v
                   | None, Some ed => ed
                   | None, None =>
                       if String.eqb (platform e) "win32" then "notepad" else "vi"
                   end <> "").
    { destruct (env_VISUAL e) as [v|]; [congruence|].
      destruct (env_EDITOR e) as [ed|];
        [intro; subst; apply (HE eq_refl); reflexivity|].
      destruct (String.eqb (platform e) "win32"); intro; discriminate. }
    destruct (preferredEditor e) as [t|]; simpl; [|exact Henv].
    destruct (Js.truthy t); simpl; [|exact Henv].
    unfold Js.truthy. destruct (String.eqb_spec (getEditorCommand e t) "");
      simpl; [exact Henv | assumption].
Qed.

Lemma resolveEditor_order_witness :
  fst (resolveEditor defaultEditorEnv "/a/notes.md") <> "".
Proof.
  apply (proj2 (proj2 (resolveEditor_order defaultEditorEnv "/a/notes.md")));
    simpl; intros; discriminate.
Defined.

Ltac hand_over :=
  split; [rewrite <- !app_assoc; reflexivity|];
  split; [rewrite ?rawModeAfter_app, ?app_nil_r; reflexivity|];
  split; reflexivity.

(** The editor is spawned exactly once, with the resolved command and
    arguments, and with raw mode switched off before it when [setRawMode] is
    available; the closed event is emitted exactly once, as the last call. *)
Theorem openFileInEditor_hands_over_terminal
    (w : World) (e : EditorEnv) (filePath : string) (t0 : Trace) (r0 : bool) :
  let t := snd (openFileInEditor e filePath w t0) in
  exists pre post,
    t = (t0 ++ pre
         ++ anyCall (SpawnSync (fst (resolveEditor e filePath))
                               (snd (resolveEditor e filePath)))
         :: post ++ [anyCall (EmitCoreEvent ExternalEditorClosed)])%list
    /\ rawModeAfter r0 (t0 ++ pre)%list
       = (if hasSetRawMode e then false else rawModeAfter r0 t0)
    /\ existsb (isCallTo isSpawnSync) (pre ++ post)%list = false
    /\ existsb isEditorClosed (pre ++ post)%list = false.
Proof.
  run_editor.
  destruct (resolveEditor e filePath) as [command args]. simpl fst. simpl snd.
  pose (fb := fun err : Error =>
          anyCall (EmitFeedback error "[MdsBrowser] external editor error" (Some err))).
  destruct (hasSetRawMode e) eqn:Hraw; simpl.
  - exists [anyCall (SetRawMode false)].
    destruct (w (t0 ++ [anyCall (SetRawMode false)])%list SpawnResult
                (SpawnSync command args)) as [[st er]|err] eqn:Hw; simpl;
      [destruct er as [err|]; simpl;
         [| destruct st as [n|]; simpl; [destruct (n =? 0) eqn:Hn; simpl|]]|].
    + exists [fb err; anyCall (SetRawMode true)]. hand_over.
    + exists [anyCall (SetRawMode true)]. hand_over.
    + exists [fb ("External editor exited with status " ++ numberToString n);
              anyCall (SetRawMode true)]. hand_over.
    + exists [anyCall (SetRawMode true)]. hand_over.
    + exists [fb err; anyCall (SetRawMode true)]. hand_over.
  - exists [].
    destruct (w t0 SpawnResult (SpawnSync command args)) as [[st er]|err] eqn:Hw;
      simpl;
      [destruct er as [err|]; simpl;
         [| destruct st as [n|]; simpl; [destruct (n =? 0) eqn:Hn; simpl|]]|].
    + exists [fb err]. hand_over.
    + exists []. hand_over.
    + exists [fb ("External editor exited with status " ++ numberToString n)].
      hand_over.
    + exists []. hand_over.
    + exists [fb err]. hand_over.
Qed.

(** [openFolder] never rejects and never touches raw mode; it spawns the
    opener of the platform once, on the directory of the path; and it
    reports an error only when [spawnSync] throws: an exit status or an
    error returned in the result is not looked at. *)
Theorem openFolder_reports_only_exceptions
    (w : World) (e : FolderEnv) (filePath : string) (t0 : Trace) (r0 : bool) :
  let command := folderCommand (folder_platform e) in
  let spawn := SpawnSync command [dirname e filePath] in
  fst (openFolder e filePath w t0) = Ok tt
  /\ snd (openFolder e filePath w t0)
     = (t0 ++ anyCall spawn
           :: match w t0 _ spawn with
              | Throw err =>
                  [anyCall (EmitFeedback error "[MdsBrowser] error opening folder"
                              (Some err))]
              | Ok _ => []
              end)%list
  /\ rawModeAfter r0 (snd (openFolder e filePath w t0)) = rawModeAfter r0 t0
  /\ (command = "explorer" \/ command = "open" \/ command = "xdg-open").
Proof.
  unfold openFolder, try_catch, bind, call, tell, ret.
  destruct (w t0 SpawnResult
              (SpawnSync (folderCommand (folder_platform e)) [dirname e filePath]))
    as [r|err] eqn:Hw; simpl.
  - repeat split.
    + rewrite rawModeAfter_app. reflexivity.
    + unfold folderCommand. repeat (destruct (String.eqb _ _); auto).
  - repeat split.
    + rewrite <- app_assoc. reflexivity.
    + rewrite !rawModeAfter_app. reflexivity.
    + unfold folderCommand. repeat (destruct (String.eqb _ _); auto).
Qed.

End EditorExtra.

(** ** More on the entry resolver *)

Module ResolverExtra.
Import Resolver ResolverFacts.
Local Open Scope string_scope.
Local Open Scope Z_scope.

(** *** The registry loop *)

Lemma fold_agentPaths_In (defs : list AgentDefinition) :
  forall (acc : Js.StrSet) (p : string),
    In p (fold_left (fun acc d => match backingPath d with
                                  | Some q => Js.set_add acc q
                                  | None => acc
                                  end) defs acc)
    <-> In p acc \/ exists d, In d defs /\ backingPath d = Some p.
Proof.
  induction defs as [|d defs IH]; intros acc p; simpl.
  - split; [auto|]. intros [H|(d & [] & _)]. exact H.
  - rewrite IH. destruct (backingPath d) as [q|] eqn:Hq.
    + rewrite set_add_In. split.
      * intros [[H| ->]|(d' & Hd' & Hb)]; eauto.
      * intros [H|(d' & [<-|Hd'] & Hb)]; eauto.
        rewrite Hq in Hb. inversion Hb. auto.
    + split.
      * intros [H|(d' & Hd' & Hb)]; eauto.
      * intros [H|(d' & [<-|Hd'] & Hb)]; eauto. congruence.
Qed.

Lemma fold_agentPaths_NoDup (defs : list AgentDefinition) :
  forall (acc : Js.StrSet),
    NoDup acc ->
    NoDup (fold_left (fun acc d => match backingPath d with
                                   | Some q => Js.set_add acc q
                                   | None => acc
                                   end) defs acc).
Proof.
  induction defs as [|d defs IH]; intros acc H; simpl; [exact H|].
  apply IH. destruct (backingPath d); [apply set_add_NoDup|]; exact H.
Qed.

(** The backing-path set holds exactly the non-empty [filePath]s of the
    registered definitions that have metadata, each once: a definition
    without metadata, without a file path or with the empty path adds
    nothing. *)
Theorem agentPaths_are_truthy_filePaths (config : Config) (p : string) :
  (In p (agentPaths config) <->
     exists d m, In d (definitions config) /\ metadata d = Some m
                 /\ filePath m = Some p /\ p <> "")
  /\ NoDup (agentPaths config).
Proof.
  split.
  - unfold agentPaths. rewrite fold_agentPaths_In. split.
    + intros [[]|(d & Hd & Hb)]. unfold backingPath in Hb.
      destruct (metadata d) as [m|] eqn:Hm; [|discriminate].
      destruct (filePath m) as [q|] eqn:Hf; [|discriminate].
      unfold Js.truthy in Hb. destruct (String.eqb_spec q ""); [discriminate|].
      inversion Hb; subst. exists d, m. auto.
    + intros (d & m & Hd & Hm & Hf & Hne). right. exists d. split; [exact Hd|].
      unfold backingPath. rewrite Hm, Hf. unfold Js.truthy.
      destruct (String.eqb_spec p ""); [contradiction | reflexivity].
  - apply fold_agentPaths_NoDup. constructor.
Qed.

(** Every entry of the resolver's list has one of the two tags 'Agent' and
    'Memory' (never 'Unknown'), no id, and a path that is a known document
    path or a backing path; it is a 'Memory' entry exactly when its path is
    not a backing path and its lower-cased name ends with neither
    'agents.md' nor '.agents'. *)
Theorem localFiles_entries
    (localeCompare : string -> string -> Z) (config : Config) (e : FileEntry) :
  In e (localFiles localeCompare config) ->
  id e = None
  /\ (type e = "Agent" \/ type e = "Memory")
  /\ type e <> "Unknown"
  /\ (In (path e) (memoryFiles config) \/ In (path e) (agentPaths config))
  /\ (type e = "Memory" <->
        ~ In (path e) (agentPaths config)
        /\ Js.endsWith (Js.toLowerCase (path e)) "agents.md" = false
        /\ Js.endsWith (Js.toLowerCase (path e)) ".agents" = false).
Proof.
  intros He. apply localFiles_In in He. destruct He as (p & Hp & ->).
  apply allPaths_In in Hp. unfold classify. simpl.
  destruct (Js.set_has (agentPaths config) p) eqn:Hs; simpl.
  - apply set_has_In in Hs. repeat split; auto; try discriminate. tauto.
  - assert (Hn : ~ In p (agentPaths config)).
    { intro H. apply set_has_In in H. congruence. }
    destruct (Js.endsWith (Js.toLowerCase p) "agents.md") eqn:E1; simpl;
      [repeat split; auto; try discriminate; intros (_ & H & _); discriminate|].
    destruct (Js.endsWith (Js.toLowerCase p) ".agents") eqn:E2; simpl;
      repeat split; auto; try discriminate. intros (_ & _ & H). discriminate.
Qed.

Lemma localFiles_entries_witness :
  type {| path := "/a/notes.md"; type := "Memory"; id := None |} <> "Unknown"
  /\ ~ In "/a/notes.md" (agentPaths sampleConfig).
Proof.
  destruct (localFiles_entries codeUnitCompare sampleConfig
              {| path := "/a/notes.md"; type := "Memory"; id := None |}
              ltac:(vm_compute; auto))
    as (_ & _ & Hunknown & _ & Hmemory).
  split; [exact Hunknown|]. apply Hmemory. reflexivity.
Defined.

(** *** The name test is case-insensitive *)

Lemma toLowerCase_append (a b : string) :
  Js.toLowerCase (a ++ b) = Js.toLowerCase a ++ Js.toLowerCase b.
Proof. induction a as [|c a IH]; simpl; [reflexivity|]. rewrite IH. reflexivity. Qed.

Lemma length_append (a b : string) :
  String.length (a ++ b) = (String.length a + String.length b)%nat.
Proof. induction a as [|c a IH]; simpl; [reflexivity|]. rewrite IH. reflexivity. Qed.

Lemma substring_all (b : string) : String.substring 0 (String.length b) b = b.
Proof. induction b as [|c b IH]; simpl; [reflexivity|]. rewrite IH. reflexivity. Qed.

Lemma substring_append (a b : string) :
  String.substring (String.length a) (String.length b) (a ++ b) = b.
Proof. induction a as [|c a IH]; simpl; [apply substring_all | exact IH]. Qed.

Lemma endsWith_append (a b : string) : Js.endsWith (a ++ b) b = true.
Proof.
  unfold Js.endsWith. rewrite length_append.
  destruct (Nat.ltb_spec (String.length a + String.length b) (String.length b));
    [lia|].
  replace (String.length a + String.length b - String.length b)%nat
    with (String.length a) by lia.
  rewrite substring_append. apply String.eqb_refl.
Qed.

(** A path ending with '.agents' or 'agents.md' in any mixture of upper and
    lower case is tagged 'Agent', whether or not it is registered; if it is a
    known document path, it is listed with that tag. *)
Theorem agent_suffix_any_case
    (localeCompare : string -> string -> Z) (config : Config) (stem suffix : string) :
  Js.toLowerCase suffix = ".agents" \/ Js.toLowerCase suffix = "agents.md" ->
  type (classify config (stem ++ suffix)) = "Agent"
  /\ (In (stem ++ suffix) (memoryFiles config) ->
      In {| path := stem ++ suffix; type := "Agent"; id := None |}
         (localFiles localeCompare config)).
Proof.
  intros Hs.
  assert (Ht : type (classify config (stem ++ suffix)) = "Agent").
  { unfold classify. simpl. rewrite toLowerCase_append.
    destruct Hs as [-> | ->]; rewrite endsWith_append;
      rewrite ?orb_true_r; reflexivity. }
  split; [exact Ht|]. intros Hin. apply localFiles_In.
  exists (stem ++ suffix). split; [apply allPaths_In; auto|].
  unfold classify in *. simpl in *. rewrite Ht. reflexivity.
Qed.

Lemma agent_suffix_any_case_witness :
  type (classify sampleConfig ("/team/Spec" ++ ".AgEnTs")) = "Agent".
Proof.
  exact (proj1 (agent_suffix_any_case codeUnitCompare sampleConfig
                  "/team/Spec" ".AgEnTs" (or_introl eq_refl))).
Defined.

Lemma agentPaths_are_truthy_filePaths_witness :
  In "/a/custom.md" (agentPaths sampleConfig).
Proof.
  apply (proj1 (agentPaths_are_truthy_filePaths sampleConfig "/a/custom.md")).
  exists {| metadata := Some {| filePath := Some "/a/custom.md" |} |},
         {| filePath := Some "/a/custom.md" |}.
  repeat split; [left; reflexivity | discriminate].
Defined.

(** *** Independence of the input order *)

Lemma StronglySorted_unique {A} (R : A -> A -> Prop) (l1 : list A) :
  forall l2,
    StronglySorted R l1 -> StronglySorted R l2 -> Permutation l1 l2 ->
    (forall a b, In a l1 -> In b l1 -> R a b -> R b a -> a = b) ->
    l1 = l2.
Proof.
  induction l1 as [|a l1 IH]; intros l2 H1 H2 HP Hanti.
  - apply Permutation_nil in HP. subst. reflexivity.
  - destruct l2 as [|b l2].
    + apply Permutation_sym, Permutation_nil in HP. discriminate.
    + inversion H1 as [|? ? HS1 HF1]; subst. inversion H2 as [|? ? HS2 HF2]; subst.
      rewrite Forall_forall in HF1, HF2.
      assert (Hab : a = b).
      { assert (Ha : In a (b :: l2))
          by (apply (Permutation_in _ HP); left; reflexivity).
        assert (Hb : In b (a :: l1))
          by (apply (Permutation_in _ (Permutation_sym HP)); left; reflexivity).
        destruct Ha as [Ha|Ha]; [auto|]. destruct Hb as [Hb|Hb]; [auto|].
        apply Hanti; [left; reflexivity | right; exact Hb | auto | auto]. }
      subst b. f_equal. apply IH; auto.
      * eapply Permutation_cons_inv. exact HP.
      * intros x y Hx Hy. apply Hanti; right; assumption.
Qed.

Lemma localFiles_StronglySorted lc config :
  consistentCollation lc ->
  StronglySorted (entry_le lc) (localFiles lc config).
Proof.
  intros Hc. unfold localFiles.
  apply (sort_StronglySorted (compareEntries lc) isKind).
  - apply entry_le_of_le, Hc.
  - apply entry_le_of_gt, Hc.
  - apply entry_le_trans, Hc.
  - apply Forall_forall. intros e He. apply in_map_iff in He.
    destruct He as (p & <- & _). apply classify_isKind.
Qed.

Lemma classify_ext config1 config2 p :
  (In p (agentPaths config1) <-> In p (agentPaths config2)) ->
  classify config1 p = classify config2 p.
Proof.
  intros H. unfold classify.
  assert (E : Js.set_has (agentPaths config1) p = Js.set_has (agentPaths config2) p).
  { destruct (Js.set_has (agentPaths config1) p) eqn:E1;
      destruct (Js.set_has (agentPaths config2) p) eqn:E2; try reflexivity.
    - apply set_has_In, H, set_has_In in E1. congruence.
    - apply set_has_In, H, set_has_In in E2. congruence. }
  rewrite E. reflexivity.
Qed.


Lemma codeUnitCompare_zero a b : codeUnitCompare a b = 0 -> a = b.
Proof.
  unfold codeUnitCompare. destruct (String.compare a b) eqn:E; try discriminate.
  intros _. apply String.compare_eq_iff, E.
Qed.


End ResolverExtra.

(** ** More on the Drive manager *)

Module DriveManagerExtra.
Import Eff DriveManager.
Local Open Scope string_scope.

Lemma added_app {A} (m : M A) (w : World) (t calls : Trace) :
  snd (m w t) = (t ++ calls)%list -> added m w t = calls.
Proof. unfold added. intros ->. apply EditorFacts.skipn_prefix. Qed.

Ltac run_manager :=
  unfold downloadFile, listFiles, listFiles_body, getOrCreateWorkspaceFolder,
    findFolder, createFolder, getDriveClient,
    try_catch, bind, call, tell, ret, throw in *.

(** Case analysis on the next answer of the host that the hypothesis [H]
    (or the goal) waits for. *)
Ltac answer_in w H :=
  match type of H with
  | context [w ?t ?R ?c] =>
      let o := fresh "o" in
      let E := fresh "E" in
      destruct (w t R c) as [o|o] eqn:E
  end.

Ltac answer w :=
  match goal with
  | |- context [w ?t ?R ?c] =>
      let o := fresh "o" in
      let E := fresh "E" in
      destruct (w t R c) as [o|o] eqn:E
  end.

(** Running a computation again along the answers already analysed. *)
Ltac replay w :=
  run_manager;
  repeat match goal with
         | E : w ?t ?R ?c = _ |- context [w ?t ?R ?c] => rewrite E; simpl
         end;
  rewrite <- ?app_assoc; reflexivity.

(** [downloadFile] resolves only after the file is written: the calls it
    has made are then the credentials, the download, [mkdir] of the chosen
    directory and the write of the downloaded data, in this order and
    nothing else, and the path returned is the one written. *)
Theorem downloadFile_resolves_after_write
    (env : Env) (w : World) (t : Trace) (fileId fileName p : string) :
  fst (downloadFile env fileId fileName w t) = Ok p ->
  p = path_join env (destDir env fileName) fileName
  /\ exists data,
       w (t ++ [anyCall GetOauthClient])%list _ (FilesGet fileId) = Ok data
       /\ map describe (added (downloadFile env fileId fileName) w t)
          = [IGetOauthClient; IFilesGet fileId;
             IFsMkdir (destDir env fileName); IFsWriteFile p data].
Proof.
  intros H.
  unfold downloadFile, getDriveClient, try_catch, bind, call, tell, ret, throw in H.
  repeat (answer_in w H; simpl in H; try discriminate).
  inversion H; subst. split; [reflexivity|]. exists o0. split; [reflexivity|].
  rewrite (added_app _ w t
             [anyCall GetOauthClient; anyCall (FilesGet fileId);
              anyCall (FsMkdir (destDir env fileName));
              anyCall (FsWriteFile
                         (path_join env (destDir env fileName) fileName) o0)]).
  - reflexivity.
  - replay w.
Qed.

Lemma downloadFile_resolves_after_write_witness :
  "/home/u/.gemini/skills/spec.AGENTS"
  = path_join posixEnv (destDir posixEnv "spec.AGENTS") "spec.AGENTS".
Proof.
  apply (downloadFile_resolves_after_write posixEnv healthyWorld [] "xyz" "spec.AGENTS"
           "/home/u/.gemini/skills/spec.AGENTS" eq_refl).
Defined.

(** The answer of the host found among the analysed ones, whatever the
    bracketing of the trace. *)
Ltac host_answer w :=
  match goal with
  | E : w ?t1 ?R ?c = _ |- w ?t2 ?R ?c = _ =>
      replace t2 with t1 by (rewrite <- ?app_assoc, ?app_nil_r; reflexivity); exact E
  end.

Ltac rejected_at w pre c :=
  exists pre, _, c;
  split; [host_answer w|];
  split; [apply added_app; replay w|];
  split; [reflexivity|];
  intros Hfs; try discriminate Hfs; eexists; reflexivity.

(** When [downloadFile] rejects, the error is the one the host threw at the
    last call made, it is logged once, after that call, and nothing follows;
    and the file system is touched only once the download has succeeded, so
    a failed download creates no directory and writes no file. *)
Theorem downloadFile_rejects_with_host_error
    (env : Env) (w : World) (t : Trace) (fileId fileName : string) (e : Error) :
  fst (downloadFile env fileId fileName w t) = Throw e ->
  exists pre R (c : Call R),
    w (t ++ pre)%list R c = Throw e
    /\ added (downloadFile env fileId fileName) w t
       = (pre ++ [anyCall c;
                  anyCall (DebugWarn "Failed to download file from Drive" e)])%list
    /\ existsb isWarn (map describe (pre ++ [anyCall c])%list) = false
    /\ (existsb isFsCall (map describe (pre ++ [anyCall c])%list) = true ->
        exists data,
          w (t ++ [anyCall GetOauthClient])%list _ (FilesGet fileId) = Ok data).
Proof.
  intros H.
  unfold downloadFile, getDriveClient, try_catch, bind, call, tell, ret, throw in H.
  repeat (answer_in w H; simpl in H; try discriminate);
    inversion H; subst.
  - rejected_at w [anyCall GetOauthClient; anyCall (FilesGet fileId);
                   anyCall (FsMkdir (destDir env fileName))]
      (FsWriteFile (path_join env (destDir env fileName) fileName) o0).
  - rejected_at w [anyCall GetOauthClient; anyCall (FilesGet fileId)]
      (FsMkdir (destDir env fileName)).
  - rejected_at w [anyCall GetOauthClient] (FilesGet fileId).
  - rejected_at w (@nil AnyCall) GetOauthClient.
Qed.

Lemma downloadFile_rejects_with_host_error_witness :
  exists pre R (c : Call R),
    offlineWorld ([] ++ pre)%list R c = Throw "network unreachable"
    /\ added (downloadFile posixEnv "xyz" "spec.agents") offlineWorld []
       = (pre ++ [anyCall c;
                  anyCall (DebugWarn "Failed to download file from Drive"
                             "network unreachable")])%list.
Proof.
  destruct (downloadFile_rejects_with_host_error posixEnv offlineWorld [] "xyz"
              "spec.agents" "network unreachable" eq_refl)
    as (pre & R & c & Hw & Hadd & _).
  exists pre, R, c. split; assumption.
Defined.

(** *** The workspace folder *)

(** When both folders exist, [getOrCreateWorkspaceFolder] creates nothing:
    it looks up 'gemini-cli' under the root, then 'md-files' under the
    folder found, and resolves with the id of the second. *)
Theorem workspaceFolder_reuses_existing
    (w : World) (t : Trace) (c : AuthClient)
    (files1 files2 : option (list DriveFile)) (g m : string) :
  w t _ GetOauthClient = Ok c ->
  w (t ++ [anyCall GetOauthClient])%list _ lookupGeminiCli = Ok files1 ->
  usableFolder files1 = Some g ->
  w (t ++ [anyCall GetOauthClient; anyCall lookupGeminiCli])%list _ (lookupMdFiles g)
    = Ok files2 ->
  usableFolder files2 = Some m ->
  getOrCreateWorkspaceFolder w t
  = (Ok m, (t ++ [anyCall GetOauthClient; anyCall lookupGeminiCli;
                  anyCall (lookupMdFiles g)])%list).
Proof.
  unfold lookupGeminiCli, lookupMdFiles, folderQuery, usableFolder.
  intros H0 H1 U1 H2 U2. unfold folderMime in *. simpl in H1, H2.
  destruct files1 as [[|f1 r1]|]; try discriminate.
  destruct (Js.truthy (file_id f1)) eqn:T1; [|discriminate].
  destruct files2 as [[|f2 r2]|]; try discriminate.
  destruct (Js.truthy (file_id f2)) eqn:T2; [|discriminate].
  inversion U1; inversion U2; subst.
  unfold getOrCreateWorkspaceFolder, findFolder, createFolder, getDriveClient,
    bind, call, ret, falsy, orEmpty, folderMime.
  rewrite H0. simpl. rewrite H1. simpl. rewrite T1. simpl.
  rewrite <- !app_assoc. simpl. rewrite H2. simpl. rewrite T2. reflexivity.
Qed.

Lemma workspaceFolder_reuses_existing_witness :
  getOrCreateWorkspaceFolder healthyWorld []
  = (Ok "xyz", [anyCall GetOauthClient; anyCall lookupGeminiCli;
                anyCall (lookupMdFiles "xyz")]).
Proof.
  apply (workspaceFolder_reuses_existing healthyWorld [] authClient
           (Some [ {| file_id := "xyz"; file_name := "spec.agents" |} ])
           (Some [ {| file_id := "xyz"; file_name := "spec.agents" |} ])
           "xyz" "xyz"); reflexivity.
Defined.

Local Arguments String.append : simpl never.

(** Case analysis along a run recorded in [H]: the answers of the host, what
    a lookup found, and whether an id is empty. *)
Ltac analyse_in w H :=
  repeat (first
            [ answer_in w H
            | match type of H with
              | context [match ?x with _ => _ end] => is_var x; destruct x
              | context [Js.truthy ?x] =>
                  let T := fresh "T" in destruct (Js.truthy x) eqn:T
              end ];
          simpl in H).

Ltac replay_all w :=
  run_manager; unfold falsy, orEmpty; simpl;
  repeat match goal with
         | E : w ?t ?R ?c = _ |- context [w ?t ?R ?c] => rewrite E; simpl
         | E : Js.truthy ?x = _ |- context [Js.truthy ?x] => rewrite E; simpl
         end;
  rewrite <- ?app_assoc; reflexivity.

Ltac created_after w pre :=
  exists pre; do 2 eexists;
  split; [apply added_app; replay_all w|];
  split; [host_answer w|];
  unfold usableFolder;
  repeat match goal with
         | E : Js.truthy ?x = _ |- context [Js.truthy ?x] => rewrite E
         end;
  reflexivity.

(** [getOrCreateWorkspaceFolder] creates a folder only where its lookup has
    just found none: every creation it asks for is of the folder type and
    comes directly after the lookup of the same name under the same parent,
    which the host answered with no folder (or one with an empty id). *)
Theorem workspaceFolder_creates_only_missing
    (w : World) (t : Trace) (name mime parent : string) :
  In (IFilesCreate name mime parent)
     (map describe (added getOrCreateWorkspaceFolder w t)) ->
  mime = folderMime
  /\ exists pre post files,
       added getOrCreateWorkspaceFolder w t
       = (pre ++ anyCall (FilesList (folderQuery name parent) "files(id, name)")
              :: anyCall (FilesCreate name mime parent) :: post)%list
       /\ w (t ++ pre)%list _ (FilesList (folderQuery name parent) "files(id, name)")
          = Ok files
       /\ usableFolder files = None.
Proof.
  intros Hin. unfold added in Hin.
  unfold getOrCreateWorkspaceFolder, findFolder, createFolder, getDriveClient,
    bind, call, ret, falsy, orEmpty in Hin.
  analyse_in w Hin;
    rewrite <- ?app_assoc in Hin; rewrite EditorFacts.skipn_prefix in Hin;
    simpl in Hin;
    repeat (destruct Hin as [Hin|Hin]); try discriminate Hin; try contradiction;
    inversion Hin; subst; (split; [reflexivity|]);
    first
      [ created_after w [anyCall GetOauthClient]
      | created_after w [anyCall GetOauthClient; anyCall lookupGeminiCli]
      | created_after w [anyCall GetOauthClient; anyCall lookupGeminiCli;
                         anyCall (FilesCreate "gemini-cli" folderMime "root")] ].
Qed.

Lemma workspaceFolder_creates_only_missing_witness :
  exists pre post files,
    added getOrCreateWorkspaceFolder emptyDriveWorld []
    = (pre ++ anyCall (FilesList (folderQuery "md-files" "new-folder") "files(id, name)")
           :: anyCall (FilesCreate "md-files" folderMime "new-folder") :: post)%list
    /\ emptyDriveWorld ([] ++ pre)%list _
         (FilesList (folderQuery "md-files" "new-folder") "files(id, name)") = Ok files
    /\ usableFolder files = None.
Proof.
  apply (workspaceFolder_creates_only_missing emptyDriveWorld []
           "md-files" folderMime "new-folder").
  vm_compute. tauto.
Defined.

End DriveManagerExtra.

(** ** [uploadFile] *)

Module DriveUploadFacts.
Import DriveManager DriveUpload.
Local Open Scope string_scope.

Lemma upload_added_app {A} (m : M A) (w : UploadWorld) (t calls : UploadTrace) :
  snd (m w t) = (t ++ calls)%list -> added m w t = calls.
Proof. unfold added. intros ->. apply EditorFacts.skipn_prefix. Qed.

Lemma base_never_writes (calls : Trace) :
  existsb isDriveWrite (map base calls) = false.
Proof.
  induction calls as [|[R c] calls IH]; simpl; [reflexivity | exact IH].
Qed.

Lemma lift_trace {A} (m : Eff.M A) (w : UploadWorld) (t : UploadTrace) :
  exists h, snd (lift m w t) = (t ++ map base h)%list.
Proof.
  unfold lift.
  destruct (m (fun h R c => w (t ++ map base h)%list R (Base c)) []) as [o h].
  exists h. reflexivity.
Qed.

Lemma lift_call {R} (c : Call R) (w : UploadWorld) (t : UploadTrace) :
  lift (Eff.call c) w t = (w t R (Base c), (t ++ [base (anyCall c)])%list).
Proof. unfold lift, Eff.call. simpl. rewrite app_nil_r. reflexivity. Qed.

Lemma lift_tell (c : Call unit) (w : UploadWorld) (t : UploadTrace) :
  lift (Eff.tell c) w t = (Ok tt, (t ++ [base (anyCall c)])%list).
Proof. reflexivity. Qed.

(** [uploadFile] resolves only after exactly one write to Drive, made last:
    an update of the first file the folder lists under the base name of the
    path, or the creation of such a file when it lists none; the content
    written is what was read from the local file just before. *)
Theorem uploadFile_writes_once
    (basename : string -> string) (localFilePath : string)
    (w : UploadWorld) (t : UploadTrace) :
  fst (uploadFile basename localFilePath w t) = Ok tt ->
  exists (calls : Trace) (folderId : string)
         (files : option (list DriveFile)) (content : string),
    let lookup := Base (FilesList (fileQuery (basename localFilePath) folderId)
                          "files(id)") in
    added (uploadFile basename localFilePath) w t
    = (map base calls
       ++ [anyUpload lookup; anyUpload (FsReadFile localFilePath "utf-8");
           chosenWrite files (basename localFilePath) folderId content])%list
    /\ w (t ++ map base calls)%list _ lookup = Ok files
    /\ w (t ++ map base calls ++ [anyUpload lookup])%list _
         (FsReadFile localFilePath "utf-8") = Ok content
    /\ existsb isDriveWrite (map base calls ++ [anyUpload lookup])%list = false.
Proof.
  intros H.
  unfold uploadFile, try_catch, bind in H.
  destruct (lift getDriveClient w t) as [[c|e1] t1] eqn:L1;
    [|rewrite lift_tell in H; discriminate H].
  destruct (lift getOrCreateWorkspaceFolder w t1) as [[folderId|e2] t2] eqn:L2;
    [|rewrite lift_tell in H; discriminate H].
  rewrite lift_call in H.
  destruct (w t2 _ (Base (FilesList (fileQuery (basename localFilePath) folderId)
                            "files(id)"))) as [files|e3] eqn:L3;
    [|rewrite lift_tell in H; discriminate H].
  unfold call in H at 1.
  destruct (w (t2 ++ [base (anyCall (FilesList
                                       (fileQuery (basename localFilePath) folderId)
                                       "files(id)"))])%list _
              (FsReadFile localFilePath "utf-8")) as [content|e4] eqn:L4;
    [|rewrite lift_tell in H; discriminate H].
  destruct (lift_trace getDriveClient w t) as [h1 T1]. rewrite L1 in T1. simpl in T1.
  destruct (lift_trace getOrCreateWorkspaceFolder w t1) as [h2 T2].
  rewrite L2 in T2. simpl in T2. subst t1 t2.
  exists (h1 ++ h2)%list, folderId, files, content. cbv zeta.
  rewrite map_app. rewrite <- !app_assoc in *.
  split; [|split; [exact L3 | split; [exact L4|]]].
  - apply upload_added_app. unfold uploadFile, try_catch, bind.
    rewrite L1, L2, lift_call, <- !app_assoc, L3. unfold call at 1. simpl.
    rewrite L4. unfold chosenWrite, call in *.
    destruct files as [[|f r]|]; rewrite <- ?app_assoc; simpl; simpl in H;
      match type of H with
      | context [w ?h unit ?c] => destruct (w h unit c) as [[]|e5] eqn:L5
      end; try (unfold throw in H; discriminate H);
      rewrite <- ?app_assoc; reflexivity.
  - rewrite app_assoc, <- map_app, existsb_app, base_never_writes. reflexivity.
Qed.

Lemma uploadFile_writes_once_witness :
  exists (calls : Trace) (folderId : string)
         (files : option (list DriveFile)) (content : string),
    added (uploadFile posixBasename "/a/notes.md") (uploadWorld healthyWorld "# notes") []
    = (map base calls
       ++ [anyUpload (Base (FilesList (fileQuery "notes.md" folderId) "files(id)"));
           anyUpload (FsReadFile "/a/notes.md" "utf-8");
           chosenWrite files "notes.md" folderId content])%list.
Proof.
  destruct (uploadFile_writes_once posixBasename "/a/notes.md"
              (uploadWorld healthyWorld "# notes") [] eq_refl)
    as (calls & folderId & files & content & Hadd & _).
  exists calls, folderId, files, content. exact Hadd.
Defined.

Lemma base_lookup_never_writes (calls : Trace) (c : AnyUploadCall) (rest : UploadTrace) :
  isDriveWrite c = false -> existsb isDriveWrite rest = false ->
  existsb isDriveWrite (map base calls ++ c :: rest)%list = false.
Proof.
  intros Hc Hr. rewrite existsb_app, base_never_writes. simpl. rewrite Hc, Hr.
  reflexivity.
Qed.

(** When [uploadFile] rejects, the last thing it has done is to log the
    error it rejects with; it has written to Drive at most once; and it has
    written to Drive only if the local file had been read: an unreadable
    file never changes the remote folder's files. *)
Theorem uploadFile_rejects_logged
    (basename : string -> string) (localFilePath : string)
    (w : UploadWorld) (t : UploadTrace) (e : Error) :
  fst (uploadFile basename localFilePath w t) = Throw e ->
  exists calls,
    added (uploadFile basename localFilePath) w t
    = (calls ++ [base (anyCall (DebugWarn "Failed to upload file to Drive" e))])%list
    /\ (List.length (filter isDriveWrite calls) <= 1)%nat
    /\ (existsb isDriveWrite calls = true ->
        exists pre content,
          w (t ++ pre)%list _ (FsReadFile localFilePath "utf-8") = Ok content).
Proof.
  intros H.
  assert (Hadd : forall calls,
             snd (uploadFile basename localFilePath w t)
             = (t ++ calls
                  ++ [base (anyCall (DebugWarn "Failed to upload file to Drive" e))])%list ->
             added (uploadFile basename localFilePath) w t
             = (calls ++ [base (anyCall (DebugWarn "Failed to upload file to Drive" e))])%list)
    by (intros calls Hs; apply upload_added_app; exact Hs).
  assert (Hfilter : forall l, existsb isDriveWrite l = false ->
                              (List.length (filter isDriveWrite l) <= 1)%nat).
  { intros l. induction l as [|x l IH]; simpl; [lia|].
    destruct (isDriveWrite x); simpl; [discriminate | exact IH]. }
  unfold uploadFile, try_catch, bind in H, Hadd.
  destruct (lift_trace getDriveClient w t) as [h1 T1].
  destruct (lift getDriveClient w t) as [[c|e1] t1] eqn:L1; simpl in T1; subst t1.
  2: { rewrite lift_tell in H, Hadd. inversion H; subst e1.
       exists (map base h1). split; [apply Hadd; rewrite <- app_assoc; reflexivity|].
       split; [apply Hfilter, base_never_writes|].
       rewrite base_never_writes. discriminate. }
  destruct (lift_trace getOrCreateWorkspaceFolder w (t ++ map base h1)%list) as [h2 T2].
  destruct (lift getOrCreateWorkspaceFolder w (t ++ map base h1)%list)
    as [[folderId|e2] t2] eqn:L2; simpl in T2; subst t2.
  2: { rewrite lift_tell in H, Hadd. inversion H; subst e2.
       exists (map base (h1 ++ h2)).
       split; [apply Hadd; rewrite map_app, <- !app_assoc; reflexivity|].
       split; [apply Hfilter, base_never_writes|].
       rewrite base_never_writes. discriminate. }
  rewrite lift_call in H, Hadd.
  set (lookup := base (anyCall (FilesList (fileQuery (basename localFilePath) folderId)
                                  "files(id)"))) in *.
  destruct (w ((t ++ map base h1) ++ map base h2)%list _
              (Base (FilesList (fileQuery (basename localFilePath) folderId)
                       "files(id)"))) as [files|e3] eqn:L3.
  2: { rewrite lift_tell in H, Hadd. inversion H; subst e3.
       exists (map base (h1 ++ h2) ++ [lookup])%list.
       split; [apply Hadd; rewrite map_app, <- !app_assoc; reflexivity|].
       assert (Hn : existsb isDriveWrite (map base (h1 ++ h2) ++ [lookup])%list = false)
         by (apply base_lookup_never_writes; reflexivity).
       split; [apply Hfilter, Hn | rewrite Hn; discriminate]. }
  unfold call in H at 1. unfold call in Hadd at 1.
  destruct (w (((t ++ map base h1) ++ map base h2) ++ [lookup])%list _
              (FsReadFile localFilePath "utf-8")) as [content|e4] eqn:L4.
  2: { rewrite lift_tell in H, Hadd. inversion H; subst e4.
       exists (map base (h1 ++ h2)
               ++ [lookup; anyUpload (FsReadFile localFilePath "utf-8")])%list.
       split; [apply Hadd; rewrite map_app, <- !app_assoc; reflexivity|].
       assert (Hn : existsb isDriveWrite
                      (map base (h1 ++ h2)
                       ++ [lookup; anyUpload (FsReadFile localFilePath "utf-8")])%list
                    = false)
         by (apply base_lookup_never_writes; reflexivity).
       split; [apply Hfilter, Hn | rewrite Hn; discriminate]. }
  assert (Hread : exists pre content0,
             w (t ++ pre)%list _ (FsReadFile localFilePath "utf-8") = Ok content0).
  { exists (map base h1 ++ map base h2 ++ [lookup])%list, content.
    rewrite <- L4. f_equal. rewrite <- !app_assoc. reflexivity. }
  unfold call in H, Hadd.
  destruct files as [[|f r]|];
    match type of H with
    | context [w ?h unit ?c] => destruct (w h unit c) as [[]|e5] eqn:L5
    end; try discriminate H;
    rewrite lift_tell in H, Hadd; inversion H; subst e5;
    match type of L5 with
    | w _ unit ?c = _ =>
        exists (map base (h1 ++ h2)
                ++ [lookup; anyUpload (FsReadFile localFilePath "utf-8");
                    anyUpload c])%list
    end;
    (split; [apply Hadd; rewrite map_app, <- !app_assoc; reflexivity|]);
    (split; [|intros _; exact Hread]);
    rewrite filter_app; rewrite length_app;
    rewrite (proj1 (length_zero_iff_nil _)); [simpl; lia| | simpl; lia| | simpl; lia|];
    clear; induction (h1 ++ h2)%list as [|[R c0] l IH]; simpl; auto.
Qed.

Lemma uploadFile_rejects_logged_witness :
  exists calls,
    added (uploadFile posixBasename "/a/notes.md") (unreadableWorld healthyWorld) []
    = (calls ++ [base (anyCall (DebugWarn "Failed to upload file to Drive" "ENOENT"))])%list
    /\ (List.length (filter isDriveWrite calls) <= 1)%nat.
Proof.
  destruct (uploadFile_rejects_logged posixBasename "/a/notes.md"
              (unreadableWorld healthyWorld) [] "ENOENT" eq_refl)
    as (calls & Hadd & Hone & _).
  exists calls. split; assumption.
Defined.

End DriveUploadFacts.
